(** * Easylanguage: the exercise answer model, the grader and the lesson cache

    A shallow embedding of [src/index.tsx] (the [App] component): the
    exercise variants, the answer store and its mutators, the grader
    [checkAnswers], the completeness gate [isCheckButtonDisabled], the
    option annotations, the derived word bank, and the lesson selection
    with its content fetch.

    Conventions of the embedding.
    - A JavaScript string is a [string]; one [ascii] stands for one
      character of the source string.
    - A handler that may raise a [TypeError] returns an [outcome].
    - Array positions handed to the handlers ([exerciseIndex],
      [userTurnIndex], [wordIndexInSentence]) are naturals: every caller
      passes the position given by [Array.prototype.map]. *)

From stdpp Require Import gmap gmultiset strings list fin_maps.

Open Scope string_scope.
Open Scope list_scope.
Open Scope nat_scope.

(** ** Results of calls that may throw *)

Inductive outcome (A : Type) : Type :=
| Returns (a : A)
| Throws.
Arguments Returns {A} a.
Arguments Throws {A}.

#[export] Instance outcome_ret : MRet outcome := @Returns.
#[export] Instance outcome_bind : MBind outcome := fun A B f c =>
  match c with
  | Returns a => f a
  | Throws => Throws
  end.

(** ** JavaScript values held by the answer store *)

(** An element of an inner array (a tuple of choices or a built
    sentence).  A hole and an explicit [undefined] are one constructor:
    every operation the source applies to an inner array (index read,
    [includes(null)], [join], spread, [length], [push], [splice],
    [indexOf] on the word bag) gives the same result on both. *)
Inductive Slot : Type :=
| SNull
| SUndefined
| SStr (s : string).

(** [type Answer = string | (string | null)[] | null], together with what
    an entry of [userAnswers] can be besides: [undefined], or a hole left
    by an assignment beyond the end of the array.  [forEach] and [some]
    skip a hole and visit an [undefined]. *)
Inductive Answer : Type :=
| AHole
| AUndefined
| ANull
| AStr (s : string)
| AArr (l : list Slot).

Definition isHole (a : Answer) : bool :=
  match a with AHole => true | _ => false end.

(** [Array.isArray(answer)] *)
Definition isArray (a : Answer) : bool :=
  match a with AArr _ => true | _ => false end.

(** [answer === null] *)
Definition isNull (a : Answer) : bool :=
  match a with ANull => true | _ => false end.

(** Truthiness, as [||] tests it: the empty string, [null] and
    [undefined] are falsy, an array and a non-empty string are truthy. *)
Definition truthy (a : Answer) : bool :=
  match a with
  | AArr _ => true
  | AStr s => negb (String.eqb s "")
  | _ => false
  end.

(** [a || d] *)
Definition orElse (a d : Answer) : Answer := if truthy a then a else d.

(** [v === s] for a string [s]. *)
Definition slotEqStr (v : Slot) (s : string) : bool :=
  match v with SStr t => String.eqb t s | _ => false end.

(** [v === k] for an optional string property [k] ([None] is
    [undefined]). *)
Definition slotEqOpt (v : Slot) (k : option string) : bool :=
  match v, k with
  | SStr t, Some s => String.eqb t s
  | SUndefined, None => true
  | _, _ => false
  end.

(** [answer === s] for a string [s]. *)
Definition answerEqStr (a : Answer) (s : string) : bool :=
  match a with AStr t => String.eqb t s | _ => false end.

(** [arr[i]] on an inner array: [undefined] beyond the end. *)
Definition slotAt (l : list Slot) (i : nat) : Slot := default SUndefined (l !! i).

(** [arr[i]] on [userAnswers]: a hole reads as [undefined]. *)
Definition answerAt (l : list Answer) (i : nat) : Answer :=
  match l !! i with
  | Some AHole | None => AUndefined
  | Some a => a
  end.

(** [arr[i] = v]: replaces the element, or extends the array, leaving
    [hole] at the positions in between. *)
Fixpoint arraySet {A : Type} (hole : A) (l : list A) (i : nat) (v : A) : list A :=
  match i, l with
  | 0, [] => [v]
  | 0, _ :: rest => v :: rest
  | S i', [] => hole :: arraySet hole [] i' v
  | S i', x :: rest => x :: arraySet hole rest i' v
  end.

(** [[...userAnswers]]: the copy is dense, a hole becomes [undefined]. *)
Definition spreadAnswers (l : list Answer) : list Answer :=
  (λ a, if isHole a then AUndefined else a) <$> l.

(** The characters of a string, as iterating it yields them. *)
Fixpoint spreadString (s : string) : list Slot :=
  match s with
  | EmptyString => []
  | String c rest => SStr (String c EmptyString) :: spreadString rest
  end.

(** [[...a]]: [null] and [undefined] are not iterable. *)
Definition spreadValue (a : Answer) : outcome (list Slot) :=
  match a with
  | AArr l => Returns l
  | AStr s => Returns (spreadString s)
  | _ => Throws
  end.

(** [a[i]]: reading a property of [null] or [undefined] throws. *)
Definition valueAt (a : Answer) (i : nat) : outcome Slot :=
  l ← spreadValue a; mret (slotAt l i).

(** [a.length] *)
Definition lengthOf (a : Answer) : outcome nat :=
  match a with
  | AArr l => Returns (length l)
  | AStr s => Returns (String.length s)
  | _ => Throws
  end.

(** [arr.includes(null)] *)
Definition includesNull (l : list Slot) : bool :=
  existsb (λ v, match v with SNull => true | _ => false end) l.

(** [!Array.isArray(answer) || answer.includes(null)] *)
Definition notArrayOrIncludesNull (a : Answer) : bool :=
  match a with
  | AArr l => includesNull l
  | _ => true
  end.

(** How [join] prints an element: [null] and [undefined] print empty. *)
Definition slotText (v : Slot) : string :=
  match v with SStr s => s | _ => "" end.

(** [arr.join(sep)] *)
Fixpoint join (sep : string) (l : list Slot) : string :=
  match l with
  | [] => ""
  | [v] => slotText v
  | v :: rest => String.append (slotText v) (String.append sep (join sep rest))
  end.

(** [arr.forEach(callback)] on [userAnswers], threading the variables the
    callback assigns: holes are skipped, and a throwing callback aborts. *)
Fixpoint forEachFrom {V : Type} (callback : Answer → nat → V → outcome V)
    (arr : list Answer) (index : nat) (st : V) : outcome V :=
  match arr with
  | [] => Returns st
  | a :: rest =>
      if isHole a then forEachFrom callback rest (S index) st
      else st' ← callback a index st; forEachFrom callback rest (S index) st'
  end.

(** [arr.some(callback)] on [userAnswers]: holes are skipped and the scan
    stops at the first [true]. *)
Fixpoint someFrom (callback : Answer → nat → outcome bool)
    (arr : list Answer) (index : nat) : outcome bool :=
  match arr with
  | [] => Returns false
  | a :: rest =>
      if isHole a then someFrom callback rest (S index)
      else b ← callback a index;
           if b : bool then Returns true else someFrom callback rest (S index)
  end.

(** [arr.every(callback)] on a dense array, for a callback that does not
    throw. *)
Fixpoint everyFrom {A : Type} (callback : A → nat → bool) (arr : list A) (index : nat) : bool :=
  match arr with
  | [] => true
  | x :: rest => callback x index && everyFrom callback rest (S index)
  end.

(** ** The exercise variants *)

Module SingleBlankExercise.
Record t : Type := mk {
  sentence : string;
  englishSentence : string;
  hint : string;
  options : list string;
  correctAnswer : string }.
End SingleBlankExercise.

Module DoubleBlankExercise.
Record t : Type := mk {
  sentence : string;
  englishSentence : string;
  hint : string;
  options1 : list string;
  correctAnswer1 : string;
  options2 : list string;
  correctAnswer2 : string }.
End DoubleBlankExercise.

Module TripleBlankExercise.
Record t : Type := mk {
  sentence : string;
  englishSentence : string;
  hint : string;
  options1 : list string;
  correctAnswer1 : string;
  options2 : list string;
  correctAnswer2 : string;
  options3 : list string;
  correctAnswer3 : string }.
End TripleBlankExercise.

Module SentenceScrambleExercise.
Record t : Type := mk {
  englishSentence : string;
  correctSentence : string;
  scrambledWords : list string }.
End SentenceScrambleExercise.

Inductive Speaker : Type := agent | user.

Module DialogueTurn.
Record t : Type := mk {
  speaker : Speaker;
  line : option string;
  prompt : option string;
  options : option (list string);
  correctAnswer : option string }.
End DialogueTurn.

Module DialogueSimulationExercise.
Record t : Type := mk {
  scenario : string;
  englishSentence : string;
  dialogue : list DialogueTurn.t }.
End DialogueSimulationExercise.

Module ImageAssociationExercise.
Record t : Type := mk {
  imageUrl : string;
  englishSentence : string;
  options : list string;
  correctAnswer : string }.
End ImageAssociationExercise.

(** [type Exercise], a union discriminated by its [type] field. *)
Inductive Exercise : Type :=
| single_blank (ex : SingleBlankExercise.t)
| double_blank (ex : DoubleBlankExercise.t)
| triple_blank (ex : TripleBlankExercise.t)
| sentence_scramble (ex : SentenceScrambleExercise.t)
| dialogue_simulation (ex : DialogueSimulationExercise.t)
| image_association (ex : ImageAssociationExercise.t).

(** [turn => turn.speaker === 'user'] *)
Definition isUserTurn (turn : DialogueTurn.t) : bool :=
  match DialogueTurn.speaker turn with user => true | agent => false end.

(** [ex.dialogue.filter(turn => turn.speaker === 'user')] *)
Definition userTurnsOf (ex : DialogueSimulationExercise.t) : list DialogueTurn.t :=
  List.filter isUserTurn (DialogueSimulationExercise.dialogue ex).

(** ** The answer store *)

(** The callback that [initializeAnswers] maps over the exercises. *)
Definition initialAnswer (ex : Exercise) : Answer :=
  match ex with
  | double_blank _ => AArr [SNull; SNull]
  | triple_blank _ => AArr [SNull; SNull; SNull]
  | sentence_scramble _ => AArr []
  | dialogue_simulation ex =>
      let userTurns := length (userTurnsOf ex) in
      AArr (replicate userTurns SNull)
  | _ => ANull
  end.

Definition initializeAnswers (exercises : list Exercise) : list Answer :=
  initialAnswer <$> exercises.

(** [blankIndex?: 0 | 1 | 2] *)
Inductive BlankIndex : Type := B0 | B1 | B2.

Definition blankPos (b : BlankIndex) : nat :=
  match b with B0 => 0 | B1 => 1 | B2 => 2 end.

(** The handlers close over [currentExercises], [checked] and
    [userAnswers]; each returns the value of the [userAnswers] state
    after the call.  In [handleAnswerSelect], [tupleCase] is the test of
    the [if] (a double or triple blank and a [blankIndex] given) together
    with the [defaultTuple] of that branch. *)
Definition handleAnswerSelect (currentExercises : list Exercise) (checked : bool)
    (userAnswers : list Answer)
    (exerciseIndex : nat) (selectedOption : string) (blankIndex : option BlankIndex)
    : outcome (list Answer) :=
  if checked then Returns userAnswers else
  let newAnswers := spreadAnswers userAnswers in
  match currentExercises !! exerciseIndex with
  | None => Throws
  | Some exercise =>
      let tupleCase :=
        match exercise, blankIndex with
        | double_blank _, Some b => Some (AArr [SNull; SNull], b)
        | triple_blank _, Some b => Some (AArr [SNull; SNull; SNull], b)
        | _, _ => None
        end in
      match tupleCase with
      | Some (defaultTuple, b) =>
          let currentTuple := orElse (answerAt newAnswers exerciseIndex) defaultTuple in
          newTuple ← spreadValue currentTuple;
          let newTuple := arraySet SUndefined newTuple (blankPos b) (SStr selectedOption) in
          mret (arraySet AHole newAnswers exerciseIndex (AArr newTuple))
      | None =>
          mret (arraySet AHole newAnswers exerciseIndex (AStr selectedOption))
      end
  end.

Inductive WordSource : Type := bank | sentence.

Definition handleWordMove (checked : bool) (userAnswers : list Answer)
    (exerciseIndex : nat) (word : string) (source : WordSource)
    (wordIndexInSentence : option nat) : outcome (list Answer) :=
  if checked then Returns userAnswers else
  let newAnswers := spreadAnswers userAnswers in
  currentSentence ← spreadValue (orElse (answerAt newAnswers exerciseIndex) (AArr []));
  let currentSentence :=
    match source, wordIndexInSentence with
    | bank, _ => currentSentence ++ [SStr word]
    | sentence, Some k => delete k currentSentence
    | sentence, None => currentSentence
    end in
  mret (arraySet AHole newAnswers exerciseIndex (AArr currentSentence)).

Definition handleDialogueAnswer (checked : bool) (userAnswers : list Answer)
    (exerciseIndex : nat) (userTurnIndex : nat) (choice : string) : outcome (list Answer) :=
  if checked then Returns userAnswers else
  let newAnswers := spreadAnswers userAnswers in
  currentDialogueAnswers ← spreadValue (answerAt newAnswers exerciseIndex);
  let currentDialogueAnswers :=
    arraySet SUndefined currentDialogueAnswers userTurnIndex (SStr choice) in
  mret (arraySet AHole newAnswers exerciseIndex (AArr currentDialogueAnswers)).

(** ** The grader *)

(** The test that guards [currentScore++] in the callback of
    [checkAnswers], for the exercise found at the answer's index. *)
Definition gradedCorrect (exercise : Exercise) (answer : Answer) : bool :=
  match exercise with
  | single_blank ex => answerEqStr answer (SingleBlankExercise.correctAnswer ex)
  | image_association ex => answerEqStr answer (ImageAssociationExercise.correctAnswer ex)
  | double_blank ex =>
      match answer with
      | AArr l => slotEqStr (slotAt l 0) (DoubleBlankExercise.correctAnswer1 ex)
                  && slotEqStr (slotAt l 1) (DoubleBlankExercise.correctAnswer2 ex)
      | _ => false
      end
  | triple_blank ex =>
      match answer with
      | AArr l => slotEqStr (slotAt l 0) (TripleBlankExercise.correctAnswer1 ex)
                  && slotEqStr (slotAt l 1) (TripleBlankExercise.correctAnswer2 ex)
                  && slotEqStr (slotAt l 2) (TripleBlankExercise.correctAnswer3 ex)
      | _ => false
      end
  | sentence_scramble ex =>
      match answer with
      | AArr l => String.eqb (join " " l) (SentenceScrambleExercise.correctSentence ex)
      | _ => false
      end
  | dialogue_simulation ex =>
      let userTurns := userTurnsOf ex in
      everyFrom (λ turn turnIndex,
                   match answer with
                   | AArr l => slotEqOpt (slotAt l turnIndex) (DialogueTurn.correctAnswer turn)
                   | _ => false
                   end) userTurns 0
  end.

(** The callback of [checkAnswers], as a step on [currentScore].
    Reading [exercise.type] throws when no exercise stands at the
    answer's index. *)
Definition gradeEntry (currentExercises : list Exercise)
    (answer : Answer) (index : nat) (currentScore : nat) : outcome nat :=
  match currentExercises !! index with
  | None => Throws
  | Some exercise =>
      Returns (if gradedCorrect exercise answer then S currentScore else currentScore)
  end.

(** [checkAnswers]: the score it stores with [setScore] (it also sets
    [checked]). *)
Definition checkAnswers (currentExercises : list Exercise) (userAnswers : list Answer)
    : outcome nat :=
  forEachFrom (gradeEntry currentExercises) userAnswers 0 0.

(** ** The completeness gate *)

(** The callback of [userAnswers.some] in [isCheckButtonDisabled]. *)
Definition incompleteEntry (currentExercises : list Exercise)
    (answer : Answer) (index : nat) : outcome bool :=
  match currentExercises !! index with
  | None => Returns true
  | Some (double_blank _) | Some (triple_blank _) =>
      Returns (notArrayOrIncludesNull answer)
  | Some (sentence_scramble ex) =>
      n ← lengthOf answer;
      Returns (negb (Nat.eqb n (length (SentenceScrambleExercise.scrambledWords ex))))
  | Some (dialogue_simulation _) =>
      Returns (notArrayOrIncludesNull answer)
  | Some _ => Returns (isNull answer)
  end.

Definition isCheckButtonDisabled (currentExercises : list Exercise)
    (userAnswers : list Answer) : outcome bool :=
  if Nat.eqb (length currentExercises) 0 then Returns true else
  someFrom (incompleteEntry currentExercises) userAnswers 0.

(** ** Option annotations *)

(** [getOptionClassName]: the class name of an option button of a blank
    or picture exercise. *)
Definition getOptionClassName (currentExercises : list Exercise) (checked : bool)
    (userAnswers : list Answer)
    (option : string) (exerciseIndex : nat) (blankIndex : Datatypes.option BlankIndex)
    : outcome string :=
  if negb checked then
    let answer := answerAt userAnswers exerciseIndex in
    match blankIndex, answer with
    | Some b, AArr l =>
        Returns (if slotEqStr (slotAt l (blankPos b)) option then "selected" else "")
    | _, _ => Returns (if answerEqStr answer option then "selected" else "")
    end
  else
  match currentExercises !! exerciseIndex with
  | None => Throws
  | Some exercise =>
      let annotate (correctAnswer : string) (picked : bool) : outcome string :=
        if String.eqb option correctAnswer then Returns "correct"
        else if picked then Returns "incorrect"
        else Returns "" in
      let pickedAt (b : BlankIndex) : bool :=
        match answerAt userAnswers exerciseIndex with
        | AArr l => slotEqStr (slotAt l (blankPos b)) option
        | _ => false
        end in
      match exercise, blankIndex with
      | single_blank ex, _ =>
          annotate (SingleBlankExercise.correctAnswer ex)
                   (answerEqStr (answerAt userAnswers exerciseIndex) option)
      | image_association ex, _ =>
          annotate (ImageAssociationExercise.correctAnswer ex)
                   (answerEqStr (answerAt userAnswers exerciseIndex) option)
      | double_blank ex, Some b =>
          let correctAnswer :=
            match b with
            | B0 => DoubleBlankExercise.correctAnswer1 ex
            | _ => DoubleBlankExercise.correctAnswer2 ex
            end in
          annotate correctAnswer (pickedAt b)
      | triple_blank ex, Some b =>
          let correctAnswer :=
            match b with
            | B0 => TripleBlankExercise.correctAnswer1 ex
            | B1 => TripleBlankExercise.correctAnswer2 ex
            | B2 => TripleBlankExercise.correctAnswer3 ex
            end in
          annotate correctAnswer (pickedAt b)
      | _, _ => Returns ""
      end
  end.

(** [getDialogueOptionClassName]: the class name of an option button of
    a user turn.  The exercise is used as a dialogue simulation without a
    test ([as DialogueSimulationExercise]); on another variant
    [exercise.dialogue] is [undefined] and [.filter] throws. *)
Definition getDialogueOptionClassName (currentExercises : list Exercise) (checked : bool)
    (userAnswers : list Answer)
    (option : string) (exerciseIndex : nat) (userTurnIndex : nat) : outcome string :=
  userAnswer ← valueAt (answerAt userAnswers exerciseIndex) userTurnIndex;
  if negb checked then
    Returns (if slotEqStr userAnswer option then "selected" else "")
  else
  match currentExercises !! exerciseIndex with
  | Some (dialogue_simulation exercise) =>
      match userTurnsOf exercise !! userTurnIndex with
      | None => Throws
      | Some userTurn =>
          if match DialogueTurn.correctAnswer userTurn with
             | Some k => String.eqb option k
             | None => false
             end
          then Returns "correct"
          else if slotEqStr userAnswer option then Returns "incorrect"
          else Returns ""
      end
  | _ => Throws
  end.

(** ** The word bank of a sentence scramble *)

(** [const i = available.indexOf(w); if (i > -1) available.splice(i, 1)] *)
Fixpoint removeFirst (w : string) (available : list string) : list string :=
  match available with
  | [] => []
  | x :: rest => if String.eqb x w then rest else x :: removeFirst w rest
  end.

(** The body of the [bankWords] closure, on a built sentence that is an
    array: [indexOf] finds no [null] or [undefined] among the words. *)
Definition bankOf (scrambledWords : list string) (builtSentence : list Slot) : list string :=
  fold_left (λ available wordInSentence,
               match wordInSentence with
               | SStr w => removeFirst w available
               | _ => available
               end) builtSentence scrambledWords.

(** [bankWords], as the practice view derives it at every render.  A
    non-empty string has no [forEach]. *)
Definition bankWords (exercise : SentenceScrambleExercise.t) (userAnswers : list Answer)
    (index : nat) : outcome (list string) :=
  match orElse (answerAt userAnswers index) (AArr []) with
  | AArr builtSentence =>
      Returns (bankOf (SentenceScrambleExercise.scrambledWords exercise) builtSentence)
  | _ => Throws
  end.

(** ** The content hierarchy *)

(** An element of [ExerciseBlock.exercises]. *)
Inductive BlankExercise : Type :=
| blank_single (ex : SingleBlankExercise.t)
| blank_double (ex : DoubleBlankExercise.t)
| blank_triple (ex : TripleBlankExercise.t).

Definition blankExercise (b : BlankExercise) : Exercise :=
  match b with
  | blank_single ex => single_blank ex
  | blank_double ex => double_blank ex
  | blank_triple ex => triple_blank ex
  end.

Module ExerciseBlock.
Record t : Type := mk {
  title : string;
  exercises : list BlankExercise }.
End ExerciseBlock.

Module Summary.
Record t : Type := mk {
  vocabulary : list (string * string);
  phrases : list (string * string);
  grammarTip : string }.
End Summary.

Module LessonContent.
Record t : Type := mk {
  summary : Summary.t;
  exerciseBlocks : list ExerciseBlock.t;
  exercises2 : option (list SentenceScrambleExercise.t);
  exercises3 : option (list DialogueSimulationExercise.t);
  exercises4 : option (list ImageAssociationExercise.t) }.
End LessonContent.

Module Lesson.
Record t : Type := mk {
  id : string;
  name : string;
  description : string;
  icon : string;
  file : option string;
  content : option LessonContent.t }.
End Lesson.

Module Level.
Record t : Type := mk {
  id : string;
  name : string;
  description : string;
  icon : string;
  lessons : list Lesson.t }.
End Level.

Module AppData.
Record t : Type := mk { levels : list Level.t }.
End AppData.

Inductive LessonView : Type :=
| selection
| practice0
| practice1 (blockIndex : nat)
| practice2
| practice3
| practice4.

(** The [view] state: ['levels'], ['lessons'] or ['lesson']. *)
Inductive View : Type := view_levels | view_lessons | view_lesson.

(** ** The state of the component *)

(** The [useState] cells of [App] that the handlers below read or
    write.  [loadedLessons] is the object used as a map from lesson id to
    loaded lesson: the [gmap] holds its own properties, and what a
    lookup finds beyond them, on [Object.prototype], is told by
    [inheritedProperties] below. *)
Record State : Type := mkState {
  appData : option AppData.t;
  loading : bool;
  loadingLesson : bool;
  loadedLessons : gmap string Lesson.t;
  view : View;
  selectedLevelId : option string;
  selectedLessonId : option string;
  lessonView : LessonView;
  userAnswers : list Answer;
  checked : bool;
  score : nat;
  visibleTranslations : gmap nat bool;
  visibleHints : gmap nat bool }.

(** [appData?.levels.find(l => l.id === selectedLevelId)] *)
Definition selectedLevel (st : State) : option Level.t :=
  d ← appData st;
  levelId ← selectedLevelId st;
  List.find (λ l, String.eqb (Level.id l) levelId) (AppData.levels d).

(** [selectedLessonId ? loadedLessons[selectedLessonId] : null].  The
    component reads the result through its [content] only, which a
    value inherited from [Object.prototype] does not have: the own
    properties decide. *)
Definition selectedLesson (st : State) : option Lesson.t :=
  lessonId ← selectedLessonId st;
  if String.eqb lessonId "" then None else loadedLessons st !! lessonId.

Definition getCurrentExercises (st : State) : list Exercise :=
  match selectedLesson st ≫= Lesson.content with
  | None => []
  | Some content =>
      match lessonView st with
      | practice1 blockIndex =>
          match LessonContent.exerciseBlocks content !! blockIndex with
          | Some block => blankExercise <$> ExerciseBlock.exercises block
          | None => []
          end
      | practice2 => sentence_scramble <$> default [] (LessonContent.exercises2 content)
      | practice3 => dialogue_simulation <$> default [] (LessonContent.exercises3 content)
      | practice4 => image_association <$> default [] (LessonContent.exercises4 content)
      | _ => []
      end
  end.

(** [resetQuiz(exercisesToReset)]; without an argument the current
    exercises are used, and so are they for an empty argument list,
    which is truthy. *)
Definition resetQuiz (st : State) (exercisesToReset : option (list Exercise)) : State :=
  let exercises := default (getCurrentExercises st) exercisesToReset in
  mkState (appData st) (loading st) (loadingLesson st) (loadedLessons st) (view st)
          (selectedLevelId st) (selectedLessonId st) (lessonView st)
          (initializeAnswers exercises) false 0 ∅ ∅.

Definition handleSelectLevel (st : State) (levelId : string) : State :=
  mkState (appData st) (loading st) (loadingLesson st) (loadedLessons st) view_lessons
          (Some levelId) (selectedLessonId st) (lessonView st)
          (userAnswers st) (checked st) (score st)
          (visibleTranslations st) (visibleHints st).

Definition handleGoToLevels (st : State) : State :=
  mkState (appData st) (loading st) (loadingLesson st) (loadedLessons st) view_levels
          None None (lessonView st)
          (userAnswers st) (checked st) (score st)
          (visibleTranslations st) (visibleHints st).

Definition handleGoToLessons (st : State) : State :=
  mkState (appData st) (loading st) (loadingLesson st) (loadedLessons st) view_lessons
          (selectedLevelId st) None (lessonView st)
          (userAnswers st) (checked st) (score st)
          (visibleTranslations st) (visibleHints st).

(** A content fetch that has been issued: the lesson id its
    continuation closes over, and the file it requests. *)
Record FetchRequest : Type := mkFetch {
  fetchLessonId : string;
  fetchFile : string }.

(** The lesson entry of the catalog that [handleSelectLesson] looks up:
    the first level holding a lesson with this id, then the first such
    lesson in it. *)
Definition lessonInfoOf (st : State) (lessonId : string) : option Lesson.t :=
  d ← appData st;
  level ← List.find (λ l, existsb (λ les, String.eqb (Lesson.id les) lessonId)
                                  (Level.lessons l))
                    (AppData.levels d);
  List.find (λ l, String.eqb (Lesson.id l) lessonId) (Level.lessons level).

(** The properties that [loadedLessons], a plain object, inherits from
    [Object.prototype] in a browser.  Each holds a function or an
    object, hence is truthy, and none of these values has a [content]
    property: in [selectedLesson] such an id reads as no lesson. *)
Definition inheritedProperties : list string :=
  ["constructor"; "__defineGetter__"; "__defineSetter__"; "hasOwnProperty";
   "__lookupGetter__"; "__lookupSetter__"; "isPrototypeOf"; "propertyIsEnumerable";
   "toString"; "valueOf"; "__proto__"; "toLocaleString"].

(** [loadedLessons[lessonId]] is truthy: a loaded lesson stands under
    this id, or the id names an inherited property. *)
Definition lessonPresent (st : State) (lessonId : string) : bool :=
  bool_decide (is_Some (loadedLessons st !! lessonId))
  || bool_decide (lessonId ∈ inheritedProperties).

(** [handleSelectLesson]: the state after the call, and the fetch it
    issued, if any. *)
Definition handleSelectLesson (st : State) (lessonId : string)
    : State * option FetchRequest :=
  let selected (nowLoading : bool) :=
    mkState (appData st) (loading st) nowLoading (loadedLessons st) view_lesson
            (selectedLevelId st) (Some lessonId) selection
            (userAnswers st) false 0 ∅ ∅ in
  if lessonPresent st lessonId then (selected (loadingLesson st), None) else
  match lessonInfoOf st lessonId ≫= Lesson.file with
  | Some file =>
      if String.eqb file "" then (selected (loadingLesson st), None)
      else (selected true, Some (mkFetch lessonId file))
  | None => (selected (loadingLesson st), None)
  end.

(** The component together with the content fetches still in flight. *)
Record World : Type := mkWorld {
  app : State;
  pending : list FetchRequest }.

Inductive Event : Type :=
| SelectLevel (levelId : string)
| SelectLesson (lessonId : string)
| GoToLevels
| GoToLessons
| FetchResolved (n : nat) (lessonData : Lesson.t)
| FetchRejected (n : nat).

(** What the rendered page offers.  [renderView] shows the level cards in
    view ['levels'] and the lesson cards of the selected level in view
    ['lessons'], once the catalog is there; [renderBreadcrumbs] shows the
    two breadcrumb buttons outside view ['levels'], whether or not a
    lesson is loading.  A fetch in flight may settle at any time. *)
Definition offered (w : World) (e : Event) : bool :=
  let st := app w in
  match e with
  | SelectLevel levelId =>
      negb (loading st) &&
      match appData st, view st with
      | Some d, view_levels =>
          existsb (λ l, String.eqb (Level.id l) levelId) (AppData.levels d)
      | _, _ => false
      end
  | SelectLesson lessonId =>
      negb (loading st) &&
      match appData st, view st, selectedLevel st with
      | Some _, view_lessons, Some level =>
          existsb (λ l, String.eqb (Lesson.id l) lessonId) (Level.lessons level)
      | _, _, _ => false
      end
  | GoToLevels =>
      match view st with view_levels => false | _ => true end
  | GoToLessons =>
      match view st, selectedLevel st with
      | view_lesson, Some _ => true
      | _, _ => false
      end
  | FetchResolved n _ | FetchRejected n => bool_decide (n < length (pending w))
  end.

(** The [.then] continuation of a fetch followed by its [.finally]. *)
Definition fetchResolved (st : State) (lessonId : string) (lessonData : Lesson.t) : State :=
  mkState (appData st) (loading st) false (<[lessonId := lessonData]> (loadedLessons st))
          (view st) (selectedLevelId st) (selectedLessonId st) (lessonView st)
          (userAnswers st) (checked st) (score st)
          (visibleTranslations st) (visibleHints st).

(** The [.catch] continuation of a fetch followed by its [.finally]. *)
Definition fetchRejected (st : State) : State :=
  mkState (appData st) (loading st) false (loadedLessons st)
          (view st) (selectedLevelId st) (selectedLessonId st) (lessonView st)
          (userAnswers st) (checked st) (score st)
          (visibleTranslations st) (visibleHints st).

(** One reaction of the component; [None] when the page does not offer
    the event. *)
Definition step (w : World) (e : Event) : option World :=
  if negb (offered w e) then None else
  match e with
  | SelectLevel levelId => Some (mkWorld (handleSelectLevel (app w) levelId) (pending w))
  | SelectLesson lessonId =>
      let '(st, issued) := handleSelectLesson (app w) lessonId in
      Some (mkWorld st (pending w ++ option_list issued))
  | GoToLevels => Some (mkWorld (handleGoToLevels (app w)) (pending w))
  | GoToLessons => Some (mkWorld (handleGoToLessons (app w)) (pending w))
  | FetchResolved n lessonData =>
      r ← pending w !! n;
      Some (mkWorld (fetchResolved (app w) (fetchLessonId r) lessonData)
                    (delete n (pending w)))
  | FetchRejected n =>
      Some (mkWorld (fetchRejected (app w)) (delete n (pending w)))
  end.

Fixpoint run (w : World) (events : list Event) : option World :=
  match events with
  | [] => Some w
  | e :: rest => w' ← step w e; run w' rest
  end.

(** The component once the catalog has arrived: the initial value of
    every state cell, with [appData] set and [loading] cleared. *)
Definition started (data : AppData.t) : World :=
  mkWorld (mkState (Some data) false false ∅ view_levels None None selection
                   [] false 0 ∅ ∅) [].

(** ** The notions of the specification *)

(** An optional choice is a string or [null]. *)
Definition optionalChoice (v : Slot) : bool :=
  match v with SUndefined => false | _ => true end.

Definition placedWord (v : Slot) : bool :=
  match v with SStr _ => true | _ => false end.

(** The answer shapes of the data model: a single optional choice for a
    single blank or a picture, a tuple of two or three optional choices,
    a sequence of placed words, and for a dialogue a tuple of optional
    choices with one slot per user turn. *)
Definition wellShaped (ex : Exercise) (a : Answer) : bool :=
  match ex, a with
  | single_blank _, ANull | single_blank _, AStr _ => true
  | image_association _, ANull | image_association _, AStr _ => true
  | double_blank _, AArr l => Nat.eqb (length l) 2 && forallb optionalChoice l
  | triple_blank _, AArr l => Nat.eqb (length l) 3 && forallb optionalChoice l
  | sentence_scramble _, AArr l => forallb placedWord l
  | dialogue_simulation ex, AArr l =>
      Nat.eqb (length l) (length (userTurnsOf ex)) && forallb optionalChoice l
  | _, _ => false
  end.

(** An answer store of matching shape: one well-shaped answer per
    exercise. *)
Definition storeShaped (exercises : list Exercise) (answers : list Answer) : Prop :=
  Forall2 (λ ex a, wellShaped ex a = true) exercises answers.

(** The slot at a position holds exactly this string. *)
Definition slotIs (l : list Slot) (i : nat) (key : string) : bool :=
  match l !! i with
  | Some (SStr s) => String.eqb s key
  | _ => false
  end.

(** The words of a built sequence. *)
Definition wordsOf (l : list Slot) : list string :=
  omap (λ v, match v with SStr s => Some s | _ => None end) l.

(** The dialogue rule, read off the dialogue itself: walk the turns in
    their original order, pass over agent turns, and compare the slot of
    each user turn, counted from [userTurnIndex], with its correct
    choice. *)
Fixpoint turnsCorrect (dialogue : list DialogueTurn.t) (userTurnIndex : nat)
    (slots : list Slot) : bool :=
  match dialogue with
  | [] => true
  | turn :: rest =>
      match DialogueTurn.speaker turn with
      | agent => turnsCorrect rest userTurnIndex slots
      | user =>
          match DialogueTurn.correctAnswer turn with
          | Some key => slotIs slots userTurnIndex key
          | None => false
          end && turnsCorrect rest (S userTurnIndex) slots
      end
  end.

(** The per-exercise correctness rule of the grading engine, variant by
    variant. *)
Definition fullyCorrect (ex : Exercise) (a : Answer) : bool :=
  match ex, a with
  | single_blank ex, AStr s => String.eqb s (SingleBlankExercise.correctAnswer ex)
  | image_association ex, AStr s => String.eqb s (ImageAssociationExercise.correctAnswer ex)
  | double_blank ex, AArr l =>
      slotIs l 0 (DoubleBlankExercise.correctAnswer1 ex)
      && slotIs l 1 (DoubleBlankExercise.correctAnswer2 ex)
  | triple_blank ex, AArr l =>
      slotIs l 0 (TripleBlankExercise.correctAnswer1 ex)
      && slotIs l 1 (TripleBlankExercise.correctAnswer2 ex)
      && slotIs l 2 (TripleBlankExercise.correctAnswer3 ex)
  | sentence_scramble ex, AArr l =>
      String.eqb (String.concat " " (wordsOf l)) (SentenceScrambleExercise.correctSentence ex)
  | dialogue_simulation ex, AArr l =>
      turnsCorrect (DialogueSimulationExercise.dialogue ex) 0 l
  | _, _ => false
  end.

(** The number of exercises graded fully correct. *)
Definition countCorrect (exercises : list Exercise) (answers : list Answer) : nat :=
  length (List.filter (λ p, fullyCorrect p.1 p.2) (zip exercises answers)).

(** A fully formed answer, variant by variant: a choice made, every
    tuple slot chosen, or as many words placed as the bag holds. *)
Definition fullyFormed (ex : Exercise) (a : Answer) : bool :=
  match ex, a with
  | single_blank _, AStr _ | image_association _, AStr _ => true
  | double_blank _, AArr l | triple_blank _, AArr l | dialogue_simulation _, AArr l =>
      forallb placedWord l
  | sentence_scramble ex, AArr l =>
      Nat.eqb (length l) (length (SentenceScrambleExercise.scrambledWords ex))
  | _, _ => false
  end.

(** The completeness gate is open when the check button is enabled. *)
Definition gateOpen (exercises : list Exercise) (answers : list Answer) : Prop :=
  isCheckButtonDisabled exercises answers = Returns false.


(** All answers of the set are fully formed. *)
Definition allFullyFormed (exercises : list Exercise) (answers : list Answer) : bool :=
  forallb (λ p, fullyFormed p.1 p.2) (zip exercises answers).

(** An exercise that the unset answer cannot satisfy: a dialogue with a
    user turn to answer, a scramble with a sentence to build. *)
Definition asksSomething (ex : Exercise) : bool :=
  match ex with
  | dialogue_simulation ex => negb (Nat.eqb (length (userTurnsOf ex)) 0)
  | sentence_scramble ex =>
      negb (String.eqb (SentenceScrambleExercise.correctSentence ex) "")
  | _ => true
  end.

(** An answers array without holes. *)
Definition dense (answers : list Answer) : Prop :=
  Forall (λ a, isHole a = false) answers.

(** A position of a choice-based exercise at which options are offered:
    the whole answer of a single blank or a picture, a blank of a double
    or triple blank, a user turn of a dialogue. *)
Inductive Position : Type :=
| whole
| blank (b : BlankIndex)
| turn (userTurnIndex : nat).

(** The correct choice of the user turn with the given user-turn index,
    found by walking the dialogue and counting user turns only. *)
Fixpoint userTurnKey (dialogue : list DialogueTurn.t) (userTurnIndex : nat)
    : option string :=
  match dialogue with
  | [] => None
  | t :: rest =>
      match DialogueTurn.speaker t, userTurnIndex with
      | agent, _ => userTurnKey rest userTurnIndex
      | user, 0 => DialogueTurn.correctAnswer t
      | user, S k => userTurnKey rest k
      end
  end.

(** The number of user turns of a dialogue. *)
Fixpoint userTurnCount (dialogue : list DialogueTurn.t) : nat :=
  match dialogue with
  | [] => 0
  | t :: rest =>
      match DialogueTurn.speaker t with
      | agent => userTurnCount rest
      | user => S (userTurnCount rest)
      end
  end.

(** The positions an exercise has. *)
Definition hasPosition (ex : Exercise) (pos : Position) : bool :=
  match ex, pos with
  | single_blank _, whole | image_association _, whole => true
  | double_blank _, blank B0 | double_blank _, blank B1 => true
  | triple_blank _, blank _ => true
  | dialogue_simulation ex, turn k =>
      bool_decide (k < userTurnCount (DialogueSimulationExercise.dialogue ex))
  | _, _ => false
  end.

(** The key of a position. *)
Definition keyAt (ex : Exercise) (pos : Position) : option string :=
  match ex, pos with
  | single_blank ex, whole => Some (SingleBlankExercise.correctAnswer ex)
  | image_association ex, whole => Some (ImageAssociationExercise.correctAnswer ex)
  | double_blank ex, blank B0 => Some (DoubleBlankExercise.correctAnswer1 ex)
  | double_blank ex, blank B1 => Some (DoubleBlankExercise.correctAnswer2 ex)
  | triple_blank ex, blank B0 => Some (TripleBlankExercise.correctAnswer1 ex)
  | triple_blank ex, blank B1 => Some (TripleBlankExercise.correctAnswer2 ex)
  | triple_blank ex, blank B2 => Some (TripleBlankExercise.correctAnswer3 ex)
  | dialogue_simulation ex, turn k => userTurnKey (DialogueSimulationExercise.dialogue ex) k
  | _, _ => None
  end.

(** The learner's selection at a position, if one was made. *)
Definition selectionAt (a : Answer) (pos : Position) : option string :=
  let chosen (l : list Slot) (i : nat) :=
    match l !! i with Some (SStr s) => Some s | _ => None end in
  match a, pos with
  | AStr s, whole => Some s
  | AArr l, blank b => chosen l (blankPos b)
  | AArr l, turn k => chosen l k
  | _, _ => None
  end.

(** The annotation of an option after checking. *)
Definition annotation (option : string) (key selection : Datatypes.option string) : string :=
  if bool_decide (key = Some option) then "correct"
  else if bool_decide (selection = Some option) then "incorrect"
  else "".

(** The class name the practice views give an option button once the
    set is checked: [getOptionClassName(option, index)] for a single
    blank or a picture, [getOptionClassName(option, index, blankIndex)]
    for the blanks of a double or triple blank, and
    [getDialogueOptionClassName(option, index, currentTurnIndex)] for a
    user turn. *)
Definition checkedOptionClassName (currentExercises : list Exercise)
    (userAnswers : list Answer) (option : string) (exerciseIndex : nat) (pos : Position)
    : outcome string :=
  match pos with
  | whole => getOptionClassName currentExercises true userAnswers option exerciseIndex None
  | blank b =>
      getOptionClassName currentExercises true userAnswers option exerciseIndex (Some b)
  | turn k =>
      getDialogueOptionClassName currentExercises true userAnswers option exerciseIndex k
  end.

(** No content fetch for this lesson id is in flight. *)
Definition notInFlight (w : World) (lessonId : string) : Prop :=
  Forall (λ r, fetchLessonId r ≠ lessonId) (pending w).

(** ** Further parts of the component *)

(** [(a as string[]).join(' ')]: only an array has [join]. *)
Definition joinValue (a : Answer) : outcome string :=
  match a with
  | AArr l => Returns (join " " l)
  | _ => Throws
  end.

(** [getScrambleClassName]: the class name of the build area of a
    scramble.  The exercise is used as a sentence scramble without a
    test; on another variant [exercise.correctSentence] is [undefined],
    which no joined string equals. *)
Definition getScrambleClassName (currentExercises : list Exercise) (checked : bool)
    (userAnswers : list Answer) (exerciseIndex : nat) : outcome string :=
  if negb checked then Returns "" else
  userAnswer ← joinValue (answerAt userAnswers exerciseIndex);
  match currentExercises !! exerciseIndex with
  | None => Throws
  | Some (sentence_scramble exercise) =>
      Returns (if String.eqb userAnswer (SentenceScrambleExercise.correctSentence exercise)
               then "correct" else "incorrect")
  | Some _ => Returns "incorrect"
  end.

(** [setLessonView(lessonView)] *)
Definition setLessonView (st : State) (lv : LessonView) : State :=
  mkState (appData st) (loading st) (loadingLesson st) (loadedLessons st) (view st)
          (selectedLevelId st) (selectedLessonId st) lv
          (userAnswers st) (checked st) (score st)
          (visibleTranslations st) (visibleHints st).

(** [renderView] shows the cards of the practice menu in view ['lesson']
    once the catalog and the lesson content are there, no lesson is
    loading, and the lesson view is the selection.  The content the
    cards are drawn from, if they are shown. *)
Definition practiceMenu (st : State) : option LessonContent.t :=
  if loading st then None else
  match appData st, view st, lessonView st with
  | Some _, view_lesson, selection =>
      if loadingLesson st then None else selectedLesson st ≫= Lesson.content
  | _, _, _ => None
  end.

(** The click on the card of an exercise block:
    [setLessonView({ type: 'practice1', blockIndex: index }); resetQuiz(block.exercises)]. *)
Definition openBlock (st : State) (index : nat) : option State :=
  content ← practiceMenu st;
  block ← LessonContent.exerciseBlocks content !! index;
  Some (setLessonView
          (resetQuiz st (Some (blankExercise <$> ExerciseBlock.exercises block)))
          (practice1 index)).

(** The click on the card of practice 2, shown when the lesson has
    [exercises2]. *)
Definition openPractice2 (st : State) : option State :=
  content ← practiceMenu st;
  exercises ← LessonContent.exercises2 content;
  Some (setLessonView (resetQuiz st (Some (sentence_scramble <$> exercises))) practice2).

(** The click on the card of practice 3, shown when the lesson has
    [exercises3]. *)
Definition openPractice3 (st : State) : option State :=
  content ← practiceMenu st;
  exercises ← LessonContent.exercises3 content;
  Some (setLessonView (resetQuiz st (Some (dialogue_simulation <$> exercises))) practice3).

(** The click on the card of practice 4, shown when the lesson has
    [exercises4]. *)
Definition openPractice4 (st : State) : option State :=
  content ← practiceMenu st;
  exercises ← LessonContent.exercises4 content;
  Some (setLessonView (resetQuiz st (Some (image_association <$> exercises))) practice4).

(** [visibleTranslations[index]], as the render tests it. *)
Definition translationVisible (st : State) (index : nat) : bool :=
  default false (visibleTranslations st !! index).

(** [visibleHints[index]], as the render tests it. *)
Definition hintVisible (st : State) (index : nat) : bool :=
  default false (visibleHints st !! index).

(** [toggleTranslation]: [prev => ({ ...prev, [index]: !prev[index] })] *)
Definition toggleTranslation (st : State) (index : nat) : State :=
  mkState (appData st) (loading st) (loadingLesson st) (loadedLessons st) (view st)
          (selectedLevelId st) (selectedLessonId st) (lessonView st)
          (userAnswers st) (checked st) (score st)
          (<[index := negb (translationVisible st index)]> (visibleTranslations st))
          (visibleHints st).

(** [toggleHint]: [prev => ({ ...prev, [index]: !prev[index] })] *)
Definition toggleHint (st : State) (index : nat) : State :=
  mkState (appData st) (loading st) (loadingLesson st) (loadedLessons st) (view st)
          (selectedLevelId st) (selectedLessonId st) (lessonView st)
          (userAnswers st) (checked st) (score st)
          (visibleTranslations st)
          (<[index := negb (hintVisible st index)]> (visibleHints st)).

(** ** Further notions used in the properties *)

(** Placing words from the bank one after the other. *)
Fixpoint placeWords (userAnswers : list Answer) (exerciseIndex : nat) (words : list string)
    : outcome (list Answer) :=
  match words with
  | [] => Returns userAnswers
  | word :: rest =>
      placed ← handleWordMove false userAnswers exerciseIndex word bank None;
      placeWords placed exerciseIndex rest
  end.

(** An exercise whose initial answer is not yet complete: every blank
    and picture exercise, a scramble with words in its bag, a dialogue
    with a user turn. *)
Definition needsInput (ex : Exercise) : bool :=
  match ex with
  | sentence_scramble ex =>
      negb (Nat.eqb (length (SentenceScrambleExercise.scrambledWords ex)) 0)
  | dialogue_simulation ex => negb (Nat.eqb (length (userTurnsOf ex)) 0)
  | _ => true
  end.

(** The class name the practice views give an option button while the
    set is not checked, with the calls of [checkedOptionClassName]. *)
Definition uncheckedOptionClassName (currentExercises : list Exercise)
    (userAnswers : list Answer) (option : string) (exerciseIndex : nat) (pos : Position)
    : outcome string :=
  match pos with
  | whole => getOptionClassName currentExercises false userAnswers option exerciseIndex None
  | blank b =>
      getOptionClassName currentExercises false userAnswers option exerciseIndex (Some b)
  | turn k =>
      getDialogueOptionClassName currentExercises false userAnswers option exerciseIndex k
  end.

(** [v === null] on a slot. *)
Definition nullSlot (v : Slot) : bool :=
  match v with SNull => true | _ => false end.

(** An answer in which nothing has been chosen or placed: [null], or
    an array that holds nothing but [null]. *)
Definition unset (a : Answer) : bool :=
  match a with
  | ANull => true
  | AArr l => forallb nullSlot l
  | _ => false
  end.

(** The exercises answered by choosing among options: all but the
    sentence scramble. *)
Definition choiceBased (ex : Exercise) : bool :=
  match ex with sentence_scramble _ => false | _ => true end.

(** The [blankIndex] argument that addresses a position of a blank or
    picture exercise. *)
Definition blankIndexOf (pos : Position) : option BlankIndex :=
  match pos with blank b => Some b | _ => None end.

(** The selections of the navigation name entries of the catalog: no
    selection in view ['levels'], a level of the catalog in view
    ['lessons'], and in view ['lesson'] a level of the catalog and one
    of its lessons. *)
Definition navigationConsistent (data : AppData.t) (w : World) : Prop :=
  appData (app w) = Some data
  ∧ loading (app w) = false
  ∧ match view (app w) with
    | view_levels => selectedLevelId (app w) = None ∧ selectedLessonId (app w) = None
    | view_lessons => is_Some (selectedLevel (app w)) ∧ selectedLessonId (app w) = None
    | view_lesson =>
        ∃ level lessonId,
          selectedLevel (app w) = Some level
          ∧ selectedLessonId (app w) = Some lessonId
          ∧ existsb (λ l, String.eqb (Lesson.id l) lessonId) (Level.lessons level) = true
    end.

(** The file the catalog names for a lesson id, as [handleSelectLesson]
    finds it. *)
Definition catalogFile (st : State) (lessonId : string) : option string :=
  lessonInfoOf st lessonId ≫= Lesson.file.

(** The lessons of the catalog, level after level. *)
Definition catalogLessons (st : State) : list Lesson.t :=
  match appData st with
  | Some d => concat (Level.lessons <$> AppData.levels d)
  | None => []
  end.

(** The first lesson of the catalog, in this order, with the given id. *)
Definition firstCatalogLesson (st : State) (lessonId : string) : option Lesson.t :=
  List.find (λ l, String.eqb (Lesson.id l) lessonId) (catalogLessons st).

(** Every fetch in flight asks for the file the catalog names for its
    lesson, and every cached lesson is one the catalog names a file
    for. *)
Definition fetchesFollowCatalog (w : World) : Prop :=
  Forall (λ r, catalogFile (app w) (fetchLessonId r) = Some (fetchFile r)) (pending w)
  ∧ ∀ lessonId, is_Some (loadedLessons (app w) !! lessonId) →
                is_Some (catalogFile (app w) lessonId).

(** ** Sample content *)

Definition sampleSingle : Exercise :=
  single_blank (SingleBlankExercise.mk "Ich ___ Anna." "I am Anna." "sein"
                  ["bin"; "bist"] "bin").

Definition sampleDouble : Exercise :=
  double_blank (DoubleBlankExercise.mk "Ich ___(1)___ eine ___(2)___." "I am a woman."
                  "sein" ["bin"; "bist"] "bin" ["Frau"; "Mann"] "Frau").

Definition sampleTriple : Exercise :=
  triple_blank (TripleBlankExercise.mk "___(1)___ ___(2)___ ___(3)___." "Where do you live?"
                  "wohnen" ["Wo"; "Wer"] "Wo" ["wohnst"; "wohne"] "wohnst"
                  ["du"; "ich"] "du").

Definition sampleScramble : Exercise :=
  sentence_scramble (SentenceScrambleExercise.mk "I am going home."
                       "Ich gehe nach Hause" ["Ich"; "gehe"; "nach"; "Hause"]).

Definition agentTurn (line : string) : DialogueTurn.t :=
  DialogueTurn.mk agent (Some line) None None None.

Definition userTurn (prompt : string) (options : list string) (key : string)
    : DialogueTurn.t :=
  DialogueTurn.mk user None (Some prompt) (Some options) (Some key).

Definition sampleDialogue : Exercise :=
  dialogue_simulation (DialogueSimulationExercise.mk "At the bakery" "Buying bread"
    [agentTurn "Guten Tag!";
     userTurn "Greet back" ["Guten Tag!"; "Gute Nacht!"] "Guten Tag!";
     agentTurn "Was darf es sein?";
     agentTurn "Wir haben Brot.";
     userTurn "Order bread" ["Ein Brot, bitte."; "Ein Bier, bitte."] "Ein Brot, bitte."]).

Definition sampleImage : Exercise :=
  image_association (ImageAssociationExercise.mk "img/apfel.png" "the apple"
                       ["der Apfel"; "das Brot"] "der Apfel").

(** A dialogue in which only the agent speaks. *)
Definition agentOnlyDialogue : Exercise :=
  dialogue_simulation (DialogueSimulationExercise.mk "Announcement" "Listen"
    [agentTurn "Der Zug kommt."; agentTurn "Bitte einsteigen."]).

(** A scramble whose correct sentence is the empty string. *)
Definition emptyScramble : Exercise :=
  sentence_scramble (SentenceScrambleExercise.mk "" "" []).

Definition sampleSet : list Exercise :=
  [sampleSingle; sampleDouble; sampleTriple; sampleScramble; sampleDialogue; sampleImage].

(** One answer per exercise of [sampleSet]; the double blank has its
    second slot wrong, the scramble two words exchanged. *)
Definition sampleAnswers : list Answer :=
  [AStr "bin";
   AArr [SStr "bin"; SStr "Mann"];
   AArr [SStr "Wo"; SStr "wohnst"; SStr "du"];
   AArr [SStr "Ich"; SStr "nach"; SStr "gehe"; SStr "Hause"];
   AArr [SStr "Guten Tag!"; SStr "Ein Brot, bitte."];
   ANull].

(** A catalog with one level and one lesson, and two lesson files as a
    server may answer them. *)
Definition sampleCatalog : AppData.t :=
  AppData.mk [Level.mk "a1" "A1" "Beginner" "1"
                [Lesson.mk "lesson1" "Lektion 1" "Begruessung" "1"
                   (Some "data/lesson1.json") None]].

Definition emptyContent : LessonContent.t :=
  LessonContent.mk (Summary.mk [] [] "") [] None None None.

Definition lessonDataA : Lesson.t :=
  Lesson.mk "lesson1" "Lektion 1" "first response" "1" None (Some emptyContent).

Definition lessonDataB : Lesson.t :=
  Lesson.mk "lesson1" "Lektion 1" "second response" "1" None (Some emptyContent).

Definition lesson1Request : FetchRequest := mkFetch "lesson1" "data/lesson1.json".


(** The learner opens lesson 1, goes back to the lesson list while its
    content is loading, and opens lesson 1 again. *)
Definition openLesson1Twice : list Event :=
  [SelectLevel "a1"; SelectLesson "lesson1"; GoToLessons; SelectLesson "lesson1"].

(** The component in the lesson list of level a1, with the content of
    lesson 1 in the cache. *)
Definition lesson1Cached : State :=
  mkState (Some sampleCatalog) false false {[ "lesson1" := lessonDataA ]} view_lessons
          (Some "a1") None selection [] false 0 ∅ ∅.

(** The content of a lesson with one exercise block and the practices
    2 and 4, and the component showing the practice menu of that
    lesson. *)
Definition sampleContent : LessonContent.t :=
  LessonContent.mk
    (Summary.mk [("Hallo", "Hello")] [("Guten Tag!", "Good day!")] "sein")
    [ExerciseBlock.mk "Block 1"
       [blank_single (SingleBlankExercise.mk "Ich ___ Anna." "I am Anna." "sein"
                        ["bin"; "bist"] "bin");
        blank_double (DoubleBlankExercise.mk "Ich ___(1)___ eine ___(2)___."
                        "I am a woman." "sein" ["bin"; "bist"] "bin"
                        ["Frau"; "Mann"] "Frau")]]
    (Some [SentenceScrambleExercise.mk "I am going home." "Ich gehe nach Hause"
             ["Ich"; "gehe"; "nach"; "Hause"]])
    None
    (Some [ImageAssociationExercise.mk "img/apfel.png" "the apple"
             ["der Apfel"; "das Brot"] "der Apfel"]).

Definition lesson1Menu : State :=
  mkState (Some sampleCatalog) false false
          {[ "lesson1" := Lesson.mk "lesson1" "Lektion 1" "Begruessung" "1" None
                            (Some sampleContent) ]}
          view_lesson (Some "a1") (Some "lesson1") selection
          [AStr "stale"] true 1 ∅ ∅.

(** * Properties *)

(** ** Auxiliary facts about the array operations *)

Lemma slotEqStr_slotAt (l : list Slot) (i : nat) (key : string) :
  slotEqStr (slotAt l i) key = slotIs l i key.
Proof.
  unfold slotAt, slotIs. destruct (l !! i) as [v|]; simpl; [|done].
  by destruct v.
Qed.

Lemma join_placed_words (l : list Slot) :
  forallb placedWord l = true → join " " l = String.concat " " (wordsOf l).
Proof.
  induction l as [|v l IH]; [done|].
  intros [Hv Hl]%andb_prop. specialize (IH Hl).
  destruct v as [| |s]; try discriminate.
  destruct l as [|v' l]; [done|].
  destruct v' as [| |s']; try discriminate.
  change (wordsOf (SStr s :: SStr s' :: l)) with (s :: s' :: wordsOf l).
  change (wordsOf (SStr s' :: l)) with (s' :: wordsOf l) in IH.
  cbn [join String.concat slotText] in *. by rewrite IH.
Qed.

Lemma wellShaped_not_hole (ex : Exercise) (a : Answer) :
  wellShaped ex a = true → isHole a = false.
Proof. by destruct ex, a. Qed.

Lemma storeShaped_length (exercises : list Exercise) (answers : list Answer) :
  storeShaped exercises answers → length exercises = length answers.
Proof. apply Forall2_length. Qed.

(** The grader's dialogue test, over the filtered user turns, is the
    walk over the whole dialogue. *)
Lemma every_user_turn (dialogue : list DialogueTurn.t) (l : list Slot) (i : nat) :
  forallb optionalChoice l = true →
  i + length (List.filter isUserTurn dialogue) ≤ length l →
  everyFrom (λ turn turnIndex, slotEqOpt (slotAt l turnIndex) (DialogueTurn.correctAnswer turn))
            (List.filter isUserTurn dialogue) i
  = turnsCorrect dialogue i l.
Proof.
  intros Hopt. revert i.
  induction dialogue as [|turn rest IH]; intros i Hlen; [done|].
  cbn [List.filter turnsCorrect]. unfold isUserTurn at 1.
  destruct (DialogueTurn.speaker turn) eqn:Hspeaker.
  - apply IH. cbn [List.filter] in Hlen. unfold isUserTurn at 1 in Hlen.
    by rewrite Hspeaker in Hlen.
  - cbn [List.filter] in Hlen. unfold isUserTurn at 1 in Hlen.
    rewrite Hspeaker in Hlen. cbn [length] in Hlen.
    cbn [everyFrom]. rewrite IH by lia. f_equal.
    unfold slotAt, slotIs.
    destruct (lookup_lt_is_Some_2 l i) as [v Hv]; [lia|]. rewrite Hv. simpl.
    assert (optionalChoice v = true) as Hv'.
    { rewrite forallb_forall in Hopt. apply Hopt.
      apply list_elem_of_In. by eapply list_elem_of_lookup_2. }
    destruct v, (DialogueTurn.correctAnswer turn); done.
Qed.

(** On a well-shaped answer the grader's test is the correctness rule. *)
Lemma gradedCorrect_fullyCorrect (ex : Exercise) (a : Answer) :
  wellShaped ex a = true → gradedCorrect ex a = fullyCorrect ex a.
Proof.
  destruct ex as [ex|ex|ex|ex|ex|ex], a as [| | |s|l]; try discriminate;
    simpl; intros Hshape; try done.
  - by rewrite !slotEqStr_slotAt.
  - by rewrite !slotEqStr_slotAt.
  - by rewrite join_placed_words.
  - apply andb_prop in Hshape as [Hlen Hopt]. apply Nat.eqb_eq in Hlen.
    unfold userTurnsOf in *. apply every_user_turn; [done|lia].
Qed.

Lemma countCorrect_cons (ex : Exercise) (a : Answer)
    (exercises : list Exercise) (answers : list Answer) :
  countCorrect (ex :: exercises) (a :: answers)
  = (if fullyCorrect ex a then 1 else 0) + countCorrect exercises answers.
Proof.
  unfold countCorrect. cbn [zip zip_with List.filter fst snd].
  by destruct (fullyCorrect ex a).
Qed.

(** Both loops are followed by induction on the answers still to visit,
    with the exercises already passed kept in [done_]: the induction
    hypothesis is used with the exercise just visited moved to
    [done_]. *)
Ltac next_exercise IH done_ ex :=
  specialize (IH (done_ ++ [ex])); rewrite length_app in IH; cbn [length] in IH;
  rewrite <- (assoc_L (++)) in IH; cbn [app] in IH;
  replace (S (length done_)) with (length done_ + 1) by lia.

Lemma gradeEntry_here (done_ rest : list Exercise) (ex : Exercise) (a : Answer) (acc : nat) :
  gradeEntry (done_ ++ ex :: rest) a (length done_) acc
  = Returns (if gradedCorrect ex a then S acc else acc).
Proof. unfold gradeEntry. by rewrite list_lookup_middle. Qed.

(** The loop of [checkAnswers], started anywhere in the exercise set. *)
Lemma checkAnswers_loop (done_ rest : list Exercise) (answers : list Answer) (acc : nat) :
  storeShaped rest answers →
  forEachFrom (gradeEntry (done_ ++ rest)) answers (length done_) acc
  = Returns (acc + countCorrect rest answers).
Proof.
  intros Hshape. revert done_ acc.
  induction Hshape as [|ex a rest answers Hex _ IH]; intros done_ acc.
  - simpl. f_equal. unfold countCorrect. simpl. lia.
  - cbn [forEachFrom]. rewrite (wellShaped_not_hole _ _ Hex).
    rewrite gradeEntry_here. cbn [mbind outcome_bind].
    next_exercise IH done_ ex.
    rewrite IH, countCorrect_cons, (gradedCorrect_fullyCorrect _ _ Hex).
    f_equal. destruct (fullyCorrect ex a); lia.
Qed.

(** ** The grader *)

(** C1. On every exercise set and answer store of matching shape,
    [checkAnswers] returns the number of exercises graded fully correct,
    where correctness is the rule of each variant: the answer string is
    the key (single blank, picture), both or all three slots are their
    keys (double, triple blank), the built words joined by single spaces
    are the correct sentence (scramble), and every user turn, met in
    dialogue order whatever agent turns stand between, has its correct
    choice in the slot of its user-turn index (dialogue). *)
Theorem checkAnswers_counts_fully_correct
    (exercises : list Exercise) (answers : list Answer) :
  storeShaped exercises answers →
  checkAnswers exercises answers = Returns (countCorrect exercises answers).
Proof.
  intros Hshape. unfold checkAnswers.
  exact (checkAnswers_loop [] exercises answers 0 Hshape).
Qed.

Lemma checkAnswers_counts_fully_correct_witness :
  storeShaped sampleSet sampleAnswers
  ∧ checkAnswers sampleSet sampleAnswers = Returns (countCorrect sampleSet sampleAnswers).
Proof.
  assert (storeShaped sampleSet sampleAnswers) as Hshape by (repeat constructor).
  split; [exact Hshape|].
  exact (checkAnswers_counts_fully_correct sampleSet sampleAnswers Hshape).
Defined.

(** ** Auxiliary facts about the two loops *)

Lemma forEachFrom_app {V : Type} (f : Answer → nat → V → outcome V)
    (front back : list Answer) (i : nat) (acc : V) :
  forEachFrom f (front ++ back) i acc
  = forEachFrom f front i acc ≫= forEachFrom f back (i + length front).
Proof.
  revert i acc. induction front as [|a front IH]; intros i acc.
  - simpl. by rewrite Nat.add_0_r.
  - rewrite <- app_comm_cons. cbn [forEachFrom length].
    replace (i + S (length front)) with (S i + length front) by lia.
    destruct (isHole a); [apply IH|].
    destruct (f a i acc) as [acc'|]; [|done]. apply IH.
Qed.

(** Two callbacks that agree on the entries they are given run the same
    loop, even from different start indices. *)
Lemma forEachFrom_ext {V : Type} (f g : Answer → nat → V → outcome V)
    (answers : list Answer) (i i' : nat) (acc : V) :
  (∀ j a acc, answers !! j = Some a → f a (i + j) acc = g a (i' + j) acc) →
  forEachFrom f answers i acc = forEachFrom g answers i' acc.
Proof.
  revert i i' acc. induction answers as [|a answers IH]; intros i i' acc Hagree; [done|].
  assert (∀ acc', forEachFrom f answers (S i) acc' = forEachFrom g answers (S i') acc')
    as Htail.
  { intros acc'. apply IH. intros j b acc'' Hj.
    replace (S i + j) with (i + S j) by lia. replace (S i' + j) with (i' + S j) by lia.
    by apply Hagree. }
  cbn [forEachFrom]. destruct (isHole a); [apply Htail|].
  specialize (Hagree 0 a acc eq_refl). rewrite !Nat.add_0_r in Hagree. rewrite Hagree.
  destruct (g a i' acc) as [acc'|]; [apply Htail|done].
Qed.

Lemma gradeEntry_step (exercises : list Exercise) (a : Answer) (i acc : nat) :
  gradeEntry exercises a i acc = gradeEntry exercises a i 0 ≫= λ n, Returns (acc + n).
Proof.
  unfold gradeEntry. destruct (exercises !! i) as [ex|]; [|done]. simpl.
  f_equal. destruct (gradedCorrect ex a); lia.
Qed.

(** The score is accumulated: running the loop from [acc] adds to [acc]
    what the loop counts from zero. *)
Lemma forEachFrom_gradeEntry_acc (exercises : list Exercise) (answers : list Answer)
    (i acc : nat) :
  forEachFrom (gradeEntry exercises) answers i acc
  = forEachFrom (gradeEntry exercises) answers i 0 ≫= λ n, Returns (acc + n).
Proof.
  revert i acc. induction answers as [|a answers IH]; intros i acc.
  - simpl. f_equal. lia.
  - cbn [forEachFrom]. destruct (isHole a); [apply IH|].
    rewrite (gradeEntry_step _ _ _ acc).
    destruct (gradeEntry exercises a i 0) as [d|]; [|done]. simpl.
    rewrite (IH _ (acc + d)), (IH _ d).
    destruct (forEachFrom (gradeEntry exercises) answers (S i) 0) as [n|]; [|done].
    simpl. f_equal. lia.
Qed.

Lemma gradeEntry_shift (done_ rest : list Exercise) (answers : list Answer) (acc : nat) :
  forEachFrom (gradeEntry (done_ ++ rest)) answers (length done_) acc
  = forEachFrom (gradeEntry rest) answers 0 acc.
Proof.
  apply forEachFrom_ext. intros j a acc' _. unfold gradeEntry.
  rewrite lookup_app_r by lia. by replace (length done_ + j - length done_) with (0 + j) by lia.
Qed.

Lemma gradeEntry_prefix (exercises more : list Exercise) (answers : list Answer) (acc : nat) :
  length answers ≤ length exercises →
  forEachFrom (gradeEntry (exercises ++ more)) answers 0 acc
  = forEachFrom (gradeEntry exercises) answers 0 acc.
Proof.
  intros Hlen. apply forEachFrom_ext. intros j a acc' Hj. unfold gradeEntry.
  apply lookup_lt_Some in Hj. by rewrite lookup_app_l by (simpl; lia).
Qed.

Lemma someFrom_ext (f g : Answer → nat → outcome bool) (answers : list Answer) (i i' : nat) :
  (∀ j a, answers !! j = Some a → f a (i + j) = g a (i' + j)) →
  someFrom f answers i = someFrom g answers i'.
Proof.
  revert i i'. induction answers as [|a answers IH]; intros i i' Hagree; [done|].
  assert (someFrom f answers (S i) = someFrom g answers (S i')) as Htail.
  { apply IH. intros j b Hj.
    replace (S i + j) with (i + S j) by lia. replace (S i' + j) with (i' + S j) by lia.
    by apply Hagree. }
  cbn [someFrom]. rewrite Htail.
  specialize (Hagree 0 a eq_refl). rewrite !Nat.add_0_r in Hagree. by rewrite Hagree.
Qed.

(** When [some] answers [false], the callback returned [false] on every
    entry that is not a hole. *)
Lemma someFrom_false (f : Answer → nat → outcome bool) (answers : list Answer) (i : nat) :
  someFrom f answers i = Returns false →
  ∀ j a, answers !! j = Some a → isHole a = false → f a (i + j) = Returns false.
Proof.
  revert i. induction answers as [|a answers IH]; intros i Hsome j b Hj Hb; [done|].
  cbn [someFrom] in Hsome. destruct j as [|j].
  - injection Hj as ->. rewrite Hb in Hsome. rewrite Nat.add_0_r.
    destruct (f b i) as [[]|]; done.
  - replace (i + S j) with (S i + j) by lia. apply IH; [|done..].
    destruct (isHole a); [done|]. destruct (f a i) as [[]|]; done.
Qed.

Lemma includesNull_placed (l : list Slot) :
  forallb optionalChoice l = true → includesNull l = negb (forallb placedWord l).
Proof.
  induction l as [|v l IH]; [done|]. intros [Hv Hl]%andb_prop.
  cbn [includesNull existsb forallb]. fold (includesNull l). rewrite (IH Hl).
  by destruct v.
Qed.

Lemma incompleteEntry_here (done_ rest : list Exercise) (ex : Exercise) (a : Answer) :
  wellShaped ex a = true →
  incompleteEntry (done_ ++ ex :: rest) a (length done_) = Returns (negb (fullyFormed ex a)).
Proof.
  intros Hshape. unfold incompleteEntry. rewrite list_lookup_middle by done.
  destruct ex, a; try discriminate; simpl; try done.
  all: apply andb_prop in Hshape as [_ Hopt]; by rewrite includesNull_placed.
Qed.

(** The loop of the gate, started anywhere in the exercise set. *)
Lemma gate_loop (done_ rest : list Exercise) (answers : list Answer) :
  storeShaped rest answers →
  someFrom (incompleteEntry (done_ ++ rest)) answers (length done_)
  = Returns (negb (allFullyFormed rest answers)).
Proof.
  intros Hshape. revert done_.
  induction Hshape as [|ex a rest answers Hex _ IH]; intros done_; [done|].
  cbn [someFrom]. rewrite (wellShaped_not_hole _ _ Hex), incompleteEntry_here by done.
  cbn [mbind outcome_bind]. unfold allFullyFormed. cbn [zip zip_with forallb fst snd].
  destruct (fullyFormed ex a); [|done]. cbn [negb andb].
  by next_exercise IH done_ ex.
Qed.

Lemma allFullyFormed_Forall2 (exercises : list Exercise) (answers : list Answer) :
  length exercises = length answers →
  allFullyFormed exercises answers = true
  ↔ Forall2 (λ ex a, fullyFormed ex a = true) exercises answers.
Proof.
  revert answers. induction exercises as [|ex exercises IH]; intros [|a answers] Hlen;
    try discriminate.
  - split; [constructor|done].
  - unfold allFullyFormed. cbn [zip zip_with forallb fst snd]. rewrite andb_true_iff.
    fold (zip exercises answers). fold (allFullyFormed exercises answers).
    rewrite IH by (simpl in Hlen; lia). split.
    + intros [? ?]. by constructor.
    + intros H. by inversion H.
Qed.

Lemma nonempty_length_eqb {A : Type} (l : list A) :
  l ≠ [] → Nat.eqb (length l) 0 = false.
Proof. by destruct l. Qed.

(** ** The completeness gate *)

(** C2. The gate is closed on every empty exercise set.  On a non-empty
    exercise set whose answer store matches it, the check button is
    disabled exactly when some answer is not fully formed, so the gate is
    open iff every exercise has a fully formed answer: a choice for a
    single blank or a picture, every slot chosen for a double or triple
    blank and for a dialogue, and for a scramble as many words placed as
    the bag holds, whatever the words. *)
Theorem gate_open_iff_all_fully_formed :
  (∀ answers, isCheckButtonDisabled [] answers = Returns true)
  ∧ (∀ exercises answers,
       exercises ≠ [] →
       storeShaped exercises answers →
       isCheckButtonDisabled exercises answers
       = Returns (negb (allFullyFormed exercises answers))
       ∧ (gateOpen exercises answers
          ↔ Forall2 (λ ex a, fullyFormed ex a = true) exercises answers)).
Proof.
  split; [done|]. intros exercises answers Hne Hshape.
  assert (isCheckButtonDisabled exercises answers
          = Returns (negb (allFullyFormed exercises answers))) as Hgate.
  { unfold isCheckButtonDisabled. rewrite nonempty_length_eqb by done.
    exact (gate_loop [] exercises answers Hshape). }
  split; [done|]. unfold gateOpen. rewrite Hgate.
  rewrite <- allFullyFormed_Forall2 by by apply storeShaped_length.
  destruct (allFullyFormed exercises answers); split; (done || congruence).
Qed.

Lemma gate_open_iff_all_fully_formed_witness :
  sampleSet ≠ []
  ∧ storeShaped sampleSet sampleAnswers
  ∧ isCheckButtonDisabled sampleSet sampleAnswers
    = Returns (negb (allFullyFormed sampleSet sampleAnswers)).
Proof.
  assert (sampleSet ≠ []) as Hne by discriminate.
  assert (storeShaped sampleSet sampleAnswers) as Hshape by (repeat constructor).
  split; [exact Hne|]. split; [exact Hshape|].
  exact (proj1 (proj2 gate_open_iff_all_fully_formed sampleSet sampleAnswers Hne Hshape)).
Defined.

(** ** Grading the initial store *)

Lemma initialAnswer_not_hole (ex : Exercise) : isHole (initialAnswer ex) = false.
Proof. by destruct ex. Qed.

Lemma slotAt_replicate_null (n i : nat) :
  i < n → slotAt (replicate n SNull) i = SNull.
Proof. intros Hi. unfold slotAt. by rewrite lookup_replicate_2. Qed.

(** The unset answer satisfies no exercise that asks something. *)
Lemma initialAnswer_incorrect (ex : Exercise) :
  asksSomething ex = true → gradedCorrect ex (initialAnswer ex) = false.
Proof.
  destruct ex as [ex|ex|ex|ex|ex|ex]; simpl; try done.
  - by destruct (SentenceScrambleExercise.correctSentence ex).
  - intros Hasks. apply negb_true_iff, Nat.eqb_neq in Hasks.
    destruct (userTurnsOf ex) as [|turn turns] eqn:Hturns; [done|].
    cbn [everyFrom length]. rewrite slotAt_replicate_null by lia. done.
Qed.

Lemma initial_loop (done_ rest : list Exercise) (acc : nat) :
  Forall (λ ex, asksSomething ex = true) rest →
  forEachFrom (gradeEntry (done_ ++ rest)) (initializeAnswers rest) (length done_) acc
  = Returns acc.
Proof.
  intros Hasks. revert done_.
  induction Hasks as [|ex rest Hex _ IH]; intros done_; [done|].
  unfold initializeAnswers. rewrite fmap_cons. cbn [forEachFrom].
  rewrite initialAnswer_not_hole, gradeEntry_here, initialAnswer_incorrect by done.
  cbn [mbind outcome_bind].
  by next_exercise IH done_ ex.
Qed.

(** C3, as the code has it.  When every dialogue of the set has at
    least one user turn and every scramble a non-empty correct sentence,
    grading the store produced by [initializeAnswers] gives score 0, and
    no exercise is counted correct. *)
Theorem initial_store_scores_zero (exercises : list Exercise) :
  Forall (λ ex, asksSomething ex = true) exercises →
  checkAnswers exercises (initializeAnswers exercises) = Returns 0
  ∧ Forall (λ ex, gradedCorrect ex (initialAnswer ex) = false) exercises.
Proof.
  intros Hasks. split.
  - exact (initial_loop [] exercises 0 Hasks).
  - eapply Forall_impl; [exact Hasks|]. apply initialAnswer_incorrect.
Qed.

Lemma initial_store_scores_zero_witness :
  Forall (λ ex, asksSomething ex = true) sampleSet
  ∧ checkAnswers sampleSet (initializeAnswers sampleSet) = Returns 0.
Proof.
  assert (Forall (λ ex, asksSomething ex = true) sampleSet) as Hasks
    by (repeat constructor).
  split; [exact Hasks|].
  exact (proj1 (initial_store_scores_zero sampleSet Hasks)).
Defined.

(** C3 fails as stated: the initial store of a dialogue without user
    turns, and of a scramble whose correct sentence is empty, is graded
    correct and scores 1. *)
Lemma initial_store_can_score :
  checkAnswers [agentOnlyDialogue] (initializeAnswers [agentOnlyDialogue]) = Returns 1
  ∧ checkAnswers [emptyScramble] (initializeAnswers [emptyScramble]) = Returns 1.
Proof. split; reflexivity. Qed.

(** ** A dialogue without user turns *)

(** Answers that do not outnumber the exercises are graded without a
    throw. *)
Lemma gradeLoop_returns (exercises : list Exercise) (answers : list Answer) (i acc : nat) :
  i + length answers ≤ length exercises →
  ∃ n, forEachFrom (gradeEntry exercises) answers i acc = Returns n.
Proof.
  revert i acc. induction answers as [|a answers IH]; intros i acc Hlen; [by eexists|].
  cbn [forEachFrom length] in *. destruct (isHole a); [apply IH; lia|].
  destruct (lookup_lt_is_Some_2 exercises i) as [ex Hex]; [lia|].
  assert (gradeEntry exercises a i acc
          = Returns (if gradedCorrect ex a then S acc else acc)) as ->.
  { unfold gradeEntry. by rewrite Hex. }
  cbn [mbind outcome_bind]. apply IH. lia.
Qed.

(** The score of a set around a dialogue without user turns, in terms
    of the scores of the two parts. *)
Lemma checkAnswers_around_silent_dialogue
    (ex : DialogueSimulationExercise.t) (a : Answer)
    (before after : list Exercise) (answersBefore answersAfter : list Answer) :
  userTurnsOf ex = [] →
  isHole a = false →
  length before = length answersBefore →
  checkAnswers (before ++ dialogue_simulation ex :: after)
               (answersBefore ++ a :: answersAfter)
  = (n1 ← checkAnswers before answersBefore;
     n2 ← checkAnswers after answersAfter;
     mret (n1 + 1 + n2)).
Proof.
  intros Hturns Ha Hlen.
  assert (gradedCorrect (dialogue_simulation ex) a = true) as Hcorrect.
  { simpl. by rewrite Hturns. }
  unfold checkAnswers. rewrite forEachFrom_app.
  rewrite gradeEntry_prefix by lia.
  destruct (forEachFrom (gradeEntry before) answersBefore 0 0) as [n1|]; [|done].
  cbn [mbind outcome_bind forEachFrom]. rewrite Ha.
  replace (0 + length answersBefore) with (length before) by lia.
  rewrite gradeEntry_here, Hcorrect. cbn [mbind outcome_bind].
  pose proof (gradeEntry_shift (before ++ [dialogue_simulation ex]) after
                answersAfter (S n1)) as Hshift.
  rewrite length_app in Hshift. cbn [length] in Hshift.
  rewrite <- (assoc_L (++)) in Hshift. simpl in Hshift.
  replace (S (length before)) with (length before + 1) by lia.
  rewrite Hshift, forEachFrom_gradeEntry_acc.
  destruct (forEachFrom (gradeEntry after) answersAfter 0 0) as [n2|]; [|done].
  cbn [mbind outcome_bind mret outcome_ret]. unfold mret, outcome_ret. f_equal. lia.
Qed.

(** C9. A dialogue-simulation exercise without user turns is graded
    correct whatever its answer is, the unset answer [[]] included:
    alone it scores 1, and wherever it stands in a set, [checkAnswers]
    returns the score of the exercises before it, plus 1, plus the score
    of the exercises after it. *)
Theorem dialogue_without_user_turns_counts
    (ex : DialogueSimulationExercise.t) (a : Answer)
    (before after : list Exercise) (answersBefore answersAfter : list Answer) :
  userTurnsOf ex = [] →
  isHole a = false →
  length before = length answersBefore →
  length answersAfter ≤ length after →
  gradedCorrect (dialogue_simulation ex) a = true
  ∧ initialAnswer (dialogue_simulation ex) = AArr []
  ∧ checkAnswers [dialogue_simulation ex] [a] = Returns 1
  ∧ ∃ n1 n2,
      checkAnswers before answersBefore = Returns n1
      ∧ checkAnswers after answersAfter = Returns n2
      ∧ checkAnswers (before ++ dialogue_simulation ex :: after)
                     (answersBefore ++ a :: answersAfter)
        = Returns (n1 + 1 + n2).
Proof.
  intros Hturns Ha Hbefore Hafter.
  assert (gradedCorrect (dialogue_simulation ex) a = true) as Hcorrect.
  { simpl. by rewrite Hturns. }
  split; [done|]. split; [simpl; by rewrite Hturns|]. split.
  - unfold checkAnswers. cbn [forEachFrom]. rewrite Ha.
    unfold gradeEntry. cbn [lookup list_lookup]. by rewrite Hcorrect.
  - destruct (gradeLoop_returns before answersBefore 0 0) as [n1 H1]; [simpl; lia|].
    destruct (gradeLoop_returns after answersAfter 0 0) as [n2 H2]; [simpl; lia|].
    exists n1, n2. fold (checkAnswers before answersBefore) in H1.
    fold (checkAnswers after answersAfter) in H2.
    split; [done|]. split; [done|].
    rewrite checkAnswers_around_silent_dialogue by done.
    by rewrite H1, H2.
Qed.

Lemma dialogue_without_user_turns_counts_witness :
  checkAnswers [agentOnlyDialogue] [ANull] = Returns 1
  ∧ ∃ n1 n2,
      checkAnswers [sampleSingle] [AStr "bin"] = Returns n1
      ∧ checkAnswers [sampleImage] [AStr "das Brot"] = Returns n2
      ∧ checkAnswers ([sampleSingle] ++ agentOnlyDialogue :: [sampleImage])
                     ([AStr "bin"] ++ ANull :: [AStr "das Brot"])
        = Returns (n1 + 1 + n2).
Proof.
  refine (proj2 (proj2 (dialogue_without_user_turns_counts
            (DialogueSimulationExercise.mk "Announcement" "Listen"
               [agentTurn "Der Zug kommt."; agentTurn "Bitte einsteigen."])
            ANull [sampleSingle] [sampleImage] [AStr "bin"] [AStr "das Brot"]
            _ _ _ _))); [reflexivity..|simpl; lia].
Defined.

(** ** The gate quantifies over the answers *)

Lemma incompleteEntry_prefix (exercises more : list Exercise) (answers : list Answer) :
  length answers ≤ length exercises →
  someFrom (incompleteEntry (exercises ++ more)) answers 0
  = someFrom (incompleteEntry exercises) answers 0.
Proof.
  intros Hlen. apply someFrom_ext. intros j a Hj. unfold incompleteEntry.
  apply lookup_lt_Some in Hj. by rewrite lookup_app_l by (simpl; lia).
Qed.

Lemma someFrom_app (f : Answer → nat → outcome bool) (front back : list Answer) (i : nat) :
  someFrom f (front ++ back) i
  = (b ← someFrom f front i;
     if b : bool then Returns true else someFrom f back (i + length front)).
Proof.
  revert i. induction front as [|a front IH]; intros i.
  - simpl. by rewrite Nat.add_0_r.
  - rewrite <- app_comm_cons. cbn [someFrom length].
    replace (i + S (length front)) with (S i + length front) by lia.
    destruct (isHole a); [apply IH|].
    destruct (f a i) as [[]|]; [done|apply IH|done].
Qed.

(** Past the end of the exercise set, the first entry that is not a hole
    disables the button. *)
Lemma someFrom_beyond (exercises : list Exercise) (extra : list Answer) (i : nat) :
  length exercises ≤ i →
  someFrom (incompleteEntry exercises) extra i
  = Returns (existsb (λ a, negb (isHole a)) extra).
Proof.
  revert i. induction extra as [|a extra IH]; intros i Hi; [done|].
  cbn [someFrom existsb]. destruct (isHole a); [apply IH; lia|].
  assert (incompleteEntry exercises a i = Returns true) as ->; [|done].
  unfold incompleteEntry. by rewrite lookup_ge_None_2.
Qed.

(** C10. The gate looks at the entries of the answers array only.  On a
    non-empty exercise set, exercises beyond the end of the answers
    array change nothing, so that with no answer at all checking is
    enabled; and an entry of the answers array at an index where the set
    has no exercise keeps the gate from opening: after well-shaped
    answers for the whole set, the button is disabled as soon as one
    more entry follows. *)
Theorem gate_ranges_over_answers :
  (∀ exercises more answers,
     exercises ≠ [] →
     length answers ≤ length exercises →
     isCheckButtonDisabled (exercises ++ more) answers
     = isCheckButtonDisabled exercises answers)
  ∧ (∀ exercises, exercises ≠ [] → gateOpen exercises [])
  ∧ (∀ exercises answers i a,
       length exercises ≤ i →
       answers !! i = Some a →
       isHole a = false →
       ¬ gateOpen exercises answers)
  ∧ (∀ exercises answers extra,
       exercises ≠ [] →
       storeShaped exercises answers →
       isCheckButtonDisabled exercises (answers ++ extra)
       = Returns (negb (allFullyFormed exercises answers)
                  || existsb (λ a, negb (isHole a)) extra)).
Proof.
  split; [|split; [|split]].
  - intros exercises more answers Hne Hlen. unfold isCheckButtonDisabled.
    rewrite length_app.
    destruct exercises as [|ex exercises]; [done|]. cbn [length Nat.add Nat.eqb].
    by apply incompleteEntry_prefix.
  - intros exercises Hne. unfold gateOpen, isCheckButtonDisabled.
    by rewrite nonempty_length_eqb.
  - intros exercises answers i a Hi Ha Hhole. unfold gateOpen, isCheckButtonDisabled.
    destruct (Nat.eqb (length exercises) 0); [done|]. intros Hopen.
    pose proof (someFrom_false _ _ _ Hopen i a Ha Hhole) as Hentry.
    unfold incompleteEntry in Hentry. cbn [Nat.add] in Hentry.
    by rewrite lookup_ge_None_2 in Hentry.
  - intros exercises answers extra Hne Hshape. unfold isCheckButtonDisabled.
    rewrite nonempty_length_eqb by done. rewrite someFrom_app.
    pose proof (gate_loop [] exercises answers Hshape) as Hloop.
    change (someFrom (incompleteEntry exercises) answers 0
            = Returns (negb (allFullyFormed exercises answers))) in Hloop.
    rewrite Hloop. cbn [mbind outcome_bind].
    destruct (allFullyFormed exercises answers); [|done]. cbn [negb orb].
    apply someFrom_beyond. rewrite (storeShaped_length _ _ Hshape). simpl. lia.
Qed.

Lemma gate_ranges_over_answers_witness :
  isCheckButtonDisabled ([sampleSingle] ++ [sampleDouble]) [AStr "bin"]
  = isCheckButtonDisabled [sampleSingle] [AStr "bin"]
  ∧ gateOpen [sampleSingle; sampleDouble] []
  ∧ ¬ gateOpen [sampleSingle] [AStr "bin"; AStr "bist"]
  ∧ isCheckButtonDisabled [sampleSingle] ([AStr "bin"] ++ [AStr "bist"]) = Returns true.
Proof.
  destruct gate_ranges_over_answers as (Hmore & Hnone & Hextra & Hafter).
  split; [|split; [|split]].
  - apply Hmore; [discriminate|simpl; lia].
  - apply Hnone. discriminate.
  - apply (Hextra [sampleSingle] [AStr "bin"; AStr "bist"] 1 (AStr "bist"));
      [simpl; lia|reflexivity|reflexivity].
  - apply (Hafter [sampleSingle] [AStr "bin"] [AStr "bist"]);
      [discriminate|repeat constructor].
Defined.

(** ** The mutators *)

(** C4. Once the set is checked, no mutator changes the answer store:
    [handleAnswerSelect] (whole answer or tuple slot), [handleWordMove]
    and [handleDialogueAnswer] all return it as it is, whatever their
    arguments. *)
Theorem checked_store_is_locked
    (currentExercises : list Exercise) (userAnswers : list Answer)
    (exerciseIndex : nat) (selectedOption : string) (blankIndex : option BlankIndex)
    (word : string) (source : WordSource) (wordIndexInSentence : option nat)
    (userTurnIndex : nat) (choice : string) :
  handleAnswerSelect currentExercises true userAnswers exerciseIndex selectedOption blankIndex
  = Returns userAnswers
  ∧ handleWordMove true userAnswers exerciseIndex word source wordIndexInSentence
    = Returns userAnswers
  ∧ handleDialogueAnswer true userAnswers exerciseIndex userTurnIndex choice
    = Returns userAnswers.
Proof. done. Qed.

Lemma spreadAnswers_dense (answers : list Answer) :
  dense answers → spreadAnswers answers = answers.
Proof.
  unfold spreadAnswers. induction 1 as [|a answers Ha _ IH]; [done|].
  rewrite fmap_cons, IH. by rewrite Ha.
Qed.

Lemma dense_spreadAnswers (answers : list Answer) : dense (spreadAnswers answers).
Proof.
  unfold dense, spreadAnswers. apply Forall_fmap, Forall_true. intros a. simpl.
  by destruct a.
Qed.

Lemma length_spreadAnswers (answers : list Answer) :
  length (spreadAnswers answers) = length answers.
Proof. apply length_fmap. Qed.

Lemma arraySet_in_range {A : Type} (hole : A) (l : list A) (i : nat) (v : A) :
  i < length l → arraySet hole l i v = <[i:=v]> l.
Proof.
  revert i. induction l as [|x l IH]; intros [|i] Hi; simpl in *; try lia; [done|].
  by rewrite IH by lia.
Qed.

Lemma arraySet_idem {A : Type} (hole : A) (l : list A) (i : nat) (v : A) :
  arraySet hole (arraySet hole l i v) i v = arraySet hole l i v.
Proof.
  revert l. induction i as [|i IH]; intros [|x l]; simpl; try done; by rewrite IH.
Qed.

Lemma answerAt_dense (answers : list Answer) (i : nat) (a : Answer) :
  answers !! i = Some a → isHole a = false → answerAt answers i = a.
Proof. unfold answerAt. intros -> Ha. by destruct a. Qed.

Lemma dense_insert (answers : list Answer) (i : nat) (a : Answer) :
  dense answers → isHole a = false → dense (<[i:=a]> answers).
Proof. intros Hdense Ha. by apply Forall_insert. Qed.

(** ** The word bank *)

Lemma removeFirst_multiset (w : string) (available : list string) :
  list_to_set_disj (removeFirst w available)
  =@{gmultiset string} list_to_set_disj available ∖ {[+ w +]}.
Proof.
  induction available as [|x available IH]; simpl; [multiset_solver|].
  destruct (String.eqb_spec x w) as [->|Hne]; simpl; [multiset_solver|].
  rewrite IH. multiset_solver.
Qed.

Lemma bankOf_multiset (scrambledWords : list string) (builtSentence : list Slot) :
  list_to_set_disj (bankOf scrambledWords builtSentence)
  =@{gmultiset string}
  list_to_set_disj scrambledWords ∖ list_to_set_disj (wordsOf builtSentence).
Proof.
  unfold bankOf. revert scrambledWords.
  induction builtSentence as [|v built IH]; intros bag; simpl; [multiset_solver|].
  rewrite IH. destruct v as [| |w]; simpl; [done..|].
  rewrite removeFirst_multiset. multiset_solver.
Qed.

Lemma removeFirst_comm (a b : string) (l : list string) :
  removeFirst a (removeFirst b l) = removeFirst b (removeFirst a l).
Proof.
  induction l as [|x l IH]; [done|]. simpl.
  destruct (String.eqb x b) eqn:Hb, (String.eqb x a) eqn:Ha; simpl; rewrite ?Ha, ?Hb.
  - apply String.eqb_eq in Ha, Hb. by subst.
  - done.
  - done.
  - by rewrite IH.
Qed.

(** The bank depends on the built sentence only through the words it
    holds, not through their order. *)
Lemma bankOf_Permutation (scrambledWords : list string) (built built' : list Slot) :
  built ≡ₚ built' → bankOf scrambledWords built = bankOf scrambledWords built'.
Proof.
  unfold bankOf. intros Hperm. revert scrambledWords.
  induction Hperm as [|v built built' _ IH|v v' built|built built' built'' _ IH _ IH'];
    intros bag; simpl.
  - done.
  - apply IH.
  - f_equal. destruct v as [| |w], v' as [| |w']; try done. apply removeFirst_comm.
  - by rewrite IH, IH'.
Qed.

Lemma delete_last_appended {A : Type} (l : list A) (x : A) :
  delete (length l) (l ++ [x]) = l.
Proof. induction l as [|y l IH]; [done|]. simpl. by rewrite IH. Qed.

Lemma delete_then_append_last {A : Type} (l : list A) (k : nat) (x : A) :
  l !! k = Some x → S k = length l → delete k l ++ [x] = l.
Proof.
  revert k. induction l as [|y l IH]; intros [|k] Hk Hlast; simpl in *; try done.
  - destruct l; [by injection Hk as ->|done].
  - f_equal. apply IH; [done|lia].
Qed.

Lemma append_is_cons_iff {A : Type} (l : list A) (x : A) :
  l ++ [x] = x :: l ↔ ∀ j y, l !! j = Some y → y = x.
Proof.
  induction l as [|z l IH]; [done|]. simpl. split.
  - intros [= <- Hl] [|j] y Hj; simpl in Hj; [congruence|]. by eapply IH.
  - intros Hall. rewrite (Hall 0 z eq_refl). f_equal. apply IH.
    intros j y Hj. by apply (Hall (S j)).
Qed.

(** Removing the element at a position and appending it again gives the
    list back exactly when the list is constant from that position
    on. *)
Lemma delete_then_append_iff {A : Type} (l : list A) (k : nat) (x : A) :
  l !! k = Some x →
  delete k l ++ [x] = l ↔ ∀ j, k ≤ j → j < length l → l !! j = Some x.
Proof.
  revert k. induction l as [|y l IH]; intros [|k] Hk; try done.
  - injection Hk as ->. cbn [delete list_delete]. rewrite append_is_cons_iff. split.
    + intros Hall [|j] _ Hj; [done|]. simpl in *.
      destruct (lookup_lt_is_Some_2 l j) as [z Hz]; [lia|].
      by rewrite Hz, (Hall j z Hz).
    + intros Hall j z Hj. pose proof (lookup_lt_Some _ _ _ Hj) as Hlt.
      specialize (Hall (S j)). simpl in Hall. rewrite Hj in Hall.
      assert (Some z = Some x) as [= ->] by (apply Hall; lia). done.
  - simpl in Hk. cbn [delete list_delete app]. split.
    + intros [= Hl] [|j] Hkj Hj; [lia|]. simpl in *.
      apply (proj1 (IH k Hk) Hl); lia.
    + intros Hall. rewrite <- app_comm_cons. f_equal. apply (IH k Hk). intros j Hkj Hj.
      apply (Hall (S j)); simpl; lia.
Qed.

(** On a dense store whose entry is an array, [handleWordMove] rewrites
    that entry and nothing else. *)
Lemma handleWordMove_on_array (answers : list Answer) (i : nat) (built : list Slot)
    (word : string) (source : WordSource) (wordIndexInSentence : option nat) :
  dense answers →
  answers !! i = Some (AArr built) →
  handleWordMove false answers i word source wordIndexInSentence
  = Returns (<[i := AArr match source, wordIndexInSentence with
                         | bank, _ => built ++ [SStr word]
                         | sentence, Some k => delete k built
                         | sentence, None => built
                         end]> answers).
Proof.
  intros Hdense Hi. unfold handleWordMove.
  rewrite spreadAnswers_dense by done.
  rewrite (answerAt_dense _ _ _ Hi) by done. simpl.
  unfold mret, outcome_ret. f_equal. apply arraySet_in_range. by eapply lookup_lt_Some.
Qed.

(** C5, as the code has it.  The word bank derived at each render is, as
    a multiset, the scrambled-word bag minus the words of the built
    sequence.  Placing a word from the bank and then removing it at its
    position, the last one, restores the answer store.  Removing the
    word at a position and then placing it again restores the bank and
    the words of the built sequence, with the word now standing last:
    the sequence itself is restored exactly when every word from that
    position to the end is the removed word, so in particular when the
    word was the last one. *)
Theorem word_bank_difference_and_round_trip :
  (∀ exercise answers i built,
     answers !! i = Some (AArr built) →
     ∃ available,
       bankWords exercise answers i = Returns available
       ∧ list_to_set_disj available
         =@{gmultiset string}
         list_to_set_disj (SentenceScrambleExercise.scrambledWords exercise)
         ∖ list_to_set_disj (wordsOf built))
  ∧ (∀ answers i built word,
       dense answers →
       answers !! i = Some (AArr built) →
       (placed ← handleWordMove false answers i word bank None;
        handleWordMove false placed i word sentence (Some (length built)))
       = Returns answers)
  ∧ (∀ scrambledWords answers i built k word,
       dense answers →
       answers !! i = Some (AArr built) →
       built !! k = Some (SStr word) →
       (removed ← handleWordMove false answers i word sentence (Some k);
        handleWordMove false removed i word bank None)
       = Returns (<[i := AArr (delete k built ++ [SStr word])]> answers)
       ∧ bankOf scrambledWords (delete k built ++ [SStr word]) = bankOf scrambledWords built
       ∧ delete k built ++ [SStr word] ≡ₚ built
       ∧ (delete k built ++ [SStr word] = built
          ↔ ∀ j, k ≤ j → j < length built → built !! j = Some (SStr word))
       ∧ (S k = length built → delete k built ++ [SStr word] = built)).
Proof.
  split; [|split].
  - intros exercise answers i built Hi. eexists. split.
    + unfold bankWords. by rewrite (answerAt_dense _ _ _ Hi).
    + apply bankOf_multiset.
  - intros answers i built word Hdense Hi.
    pose proof (lookup_lt_Some _ _ _ Hi) as Hlt.
    rewrite (handleWordMove_on_array _ _ built) by done. cbn [mbind outcome_bind].
    rewrite (handleWordMove_on_array _ _ (built ++ [SStr word]));
      [|by apply dense_insert|by apply list_lookup_insert_eq].
    rewrite delete_last_appended, list_insert_insert_eq. by rewrite list_insert_id.
  - intros scrambledWords answers i built k word Hdense Hi Hk.
    pose proof (lookup_lt_Some _ _ _ Hi) as Hlt.
    assert (delete k built ++ [SStr word] ≡ₚ built) as Hperm.
    { rewrite (delete_Permutation built k (SStr word)) at 2 by done.
      symmetry. apply Permutation_cons_append. }
    split; [|split; [|split; [|split]]].
    + rewrite (handleWordMove_on_array _ _ built) by done. cbn [mbind outcome_bind].
      rewrite (handleWordMove_on_array _ _ (delete k built));
        [|by apply dense_insert|by apply list_lookup_insert_eq].
      by rewrite list_insert_insert_eq.
    + by apply bankOf_Permutation.
    + done.
    + by apply delete_then_append_iff.
    + intros Hlast. by apply delete_then_append_last.
Qed.

Lemma word_bank_difference_and_round_trip_witness :
  (placed ← handleWordMove false [AArr [SStr "Ich"]] 0 "gehe" bank None;
   handleWordMove false placed 0 "gehe" sentence (Some 1))
  = Returns [AArr [SStr "Ich"]].
Proof.
  refine (proj1 (proj2 word_bank_difference_and_round_trip)
            [AArr [SStr "Ich"]] 0 [SStr "Ich"] "gehe" _ _).
  - repeat constructor.
  - reflexivity.
Defined.

(** C5 fails as stated for a removal followed by a placement: the word
    comes back at the end of the built sequence, not at its position. *)
Lemma remove_then_place_moves_word_last :
  (removed ← handleWordMove false [AArr [SStr "Ich"; SStr "gehe"]] 0 "Ich" sentence (Some 0);
   handleWordMove false removed 0 "Ich" bank None)
  = Returns [AArr [SStr "gehe"; SStr "Ich"]]
  ∧ [AArr [SStr "gehe"; SStr "Ich"]] ≠ [AArr [SStr "Ich"; SStr "gehe"]].
Proof. split; [reflexivity|discriminate]. Qed.

(** ** Repeating a mutation *)

Lemma arraySet_answerAt (answers : list Answer) (i : nat) (a : Answer) :
  isHole a = false → answerAt (arraySet AHole answers i a) i = a.
Proof.
  intros Ha. unfold answerAt.
  assert (arraySet AHole answers i a !! i = Some a) as ->.
  { revert answers. induction i as [|i IH]; intros [|x l]; simpl; try done; apply IH. }
  by destruct a.
Qed.

(** An assignment within a dense array keeps it dense, so that the next
    spread copies it as it is. *)
Lemma spreadAnswers_arraySet (answers : list Answer) (i : nat) (a : Answer) :
  i < length answers → isHole a = false →
  spreadAnswers (arraySet AHole (spreadAnswers answers) i a)
  = arraySet AHole (spreadAnswers answers) i a.
Proof.
  intros Hi Ha. apply spreadAnswers_dense.
  rewrite arraySet_in_range by by rewrite length_spreadAnswers.
  apply dense_insert; [apply dense_spreadAnswers|done].
Qed.

Lemma spreadValue_orElse_array (a : Answer) (defaultTuple : list Slot) :
  ∃ l, spreadValue (orElse a (AArr defaultTuple)) = Returns l.
Proof.
  unfold orElse. destruct a as [| | |s|l]; simpl; eauto.
  destruct (negb (String.eqb s "")); simpl; eauto.
Qed.

(** C6, as the code has it.  For a valid exercise index, choosing the
    same option twice with [handleAnswerSelect] (whole answer or tuple
    slot), or the same choice for the same user turn twice with
    [handleDialogueAnswer], leaves the store of the first call; and no
    mutator throws: [handleAnswerSelect] for an index within the set,
    [handleDialogueAnswer] on an entry that is a tuple, [handleWordMove]
    never. *)
Theorem choice_is_idempotent_and_mutators_return :
  (∀ currentExercises userAnswers exerciseIndex selectedOption blankIndex,
     exerciseIndex < length currentExercises →
     exerciseIndex < length userAnswers →
     ∃ chosen,
       handleAnswerSelect currentExercises false userAnswers
                          exerciseIndex selectedOption blankIndex = Returns chosen
       ∧ handleAnswerSelect currentExercises false chosen
                            exerciseIndex selectedOption blankIndex = Returns chosen)
  ∧ (∀ userAnswers exerciseIndex tuple userTurnIndex choice,
       userAnswers !! exerciseIndex = Some (AArr tuple) →
       ∃ chosen,
         handleDialogueAnswer false userAnswers exerciseIndex userTurnIndex choice
         = Returns chosen
         ∧ handleDialogueAnswer false chosen exerciseIndex userTurnIndex choice
           = Returns chosen)
  ∧ (∀ userAnswers exerciseIndex word source wordIndexInSentence,
       ∃ moved,
         handleWordMove false userAnswers exerciseIndex word source wordIndexInSentence
         = Returns moved).
Proof.
  split; [|split].
  - intros exs ua i o b Hexs Hua. unfold handleAnswerSelect.
    destruct (lookup_lt_is_Some_2 exs i Hexs) as [ex ->].
    set (tupleCase := match ex, b with
                      | double_blank _, Some b => Some (AArr [SNull; SNull], b)
                      | triple_blank _, Some b => Some (AArr [SNull; SNull; SNull], b)
                      | _, _ => None
                      end).
    assert (tupleCase = None
            ∨ ∃ d b', tupleCase = Some (AArr d, b')) as [->| (d & b' & ->)].
    { subst tupleCase. destruct ex, b; eauto. }
    + eexists. split; [done|]. cbn [mret outcome_ret].
      rewrite spreadAnswers_arraySet by done. unfold mret, outcome_ret.
      by rewrite arraySet_idem.
    + destruct (spreadValue_orElse_array (answerAt (spreadAnswers ua) i) d) as [l ->].
      cbn [mbind outcome_bind]. eexists. split; [done|].
      rewrite spreadAnswers_arraySet by done.
      rewrite arraySet_answerAt by done. cbn [orElse truthy spreadValue mbind outcome_bind].
      by rewrite !arraySet_idem.
  - intros ua i tuple k c Hi. unfold handleDialogueAnswer.
    pose proof (lookup_lt_Some _ _ _ Hi) as Hlt.
    assert (answerAt (spreadAnswers ua) i = AArr tuple) as ->.
    { apply answerAt_dense; [|done]. unfold spreadAnswers.
      by rewrite list_lookup_fmap, Hi. }
    cbn [spreadValue mbind outcome_bind]. eexists. split; [done|].
    rewrite spreadAnswers_arraySet by done.
    rewrite arraySet_answerAt by done. cbn [spreadValue mbind outcome_bind].
    by rewrite !arraySet_idem.
  - intros ua i w src k. unfold handleWordMove.
    destruct (spreadValue_orElse_array (answerAt (spreadAnswers ua) i) []) as [l ->].
    cbn [mbind outcome_bind]. eauto.
Qed.

Lemma choice_is_idempotent_and_mutators_return_witness :
  ∃ chosen,
    handleAnswerSelect sampleSet false sampleAnswers 1 "Frau" (Some B1) = Returns chosen
    ∧ handleAnswerSelect sampleSet false chosen 1 "Frau" (Some B1) = Returns chosen.
Proof.
  apply (proj1 choice_is_idempotent_and_mutators_return
           sampleSet sampleAnswers 1 "Frau" (Some B1)); simpl; lia.
Defined.

(** C6 fails as stated for [handleWordMove]: placing the same word twice
    appends it twice, and removing at the same position twice removes
    two words. *)
Lemma word_move_is_not_idempotent :
  handleWordMove false [AArr []] 0 "Ich" bank None = Returns [AArr [SStr "Ich"]]
  ∧ handleWordMove false [AArr [SStr "Ich"]] 0 "Ich" bank None
    = Returns [AArr [SStr "Ich"; SStr "Ich"]]
  ∧ handleWordMove false [AArr [SStr "Ich"; SStr "gehe"]] 0 "Ich" sentence (Some 0)
    = Returns [AArr [SStr "gehe"]]
  ∧ handleWordMove false [AArr [SStr "gehe"]] 0 "Ich" sentence (Some 0)
    = Returns [AArr []].
Proof. repeat split; reflexivity. Qed.

(** ** Option annotations after checking *)

Lemma userTurnCount_filter (dialogue : list DialogueTurn.t) :
  userTurnCount dialogue = length (List.filter isUserTurn dialogue).
Proof.
  induction dialogue as [|t rest IH]; [done|]. cbn [userTurnCount List.filter].
  unfold isUserTurn at 1. destruct (DialogueTurn.speaker t); simpl; by rewrite IH.
Qed.

(** The user turn that the grader and the annotation find by filtering
    is the one met by walking the dialogue. *)
Lemma userTurnKey_filter (dialogue : list DialogueTurn.t) (k : nat) :
  k < userTurnCount dialogue →
  ∃ t, List.filter isUserTurn dialogue !! k = Some t
       ∧ userTurnKey dialogue k = DialogueTurn.correctAnswer t.
Proof.
  revert k. induction dialogue as [|t rest IH]; intros k Hk; [simpl in Hk; lia|].
  cbn [userTurnCount userTurnKey List.filter] in *. unfold isUserTurn at 1.
  destruct (DialogueTurn.speaker t); [by apply IH|].
  destruct k as [|k]; [by exists t|]. apply IH. lia.
Qed.

Lemma eqb_key_decide (option key : string) :
  String.eqb option key = bool_decide (Some key = Some option).
Proof.
  destruct (String.eqb_spec option key) as [->|Hne].
  - by rewrite bool_decide_eq_true_2.
  - rewrite bool_decide_eq_false_2; [done|]. intros [=]. by subst.
Qed.

Lemma answerEqStr_selection (a : Answer) (option : string) :
  answerEqStr a option = bool_decide (selectionAt a whole = Some option).
Proof.
  destruct a as [| | |s|l]; simpl; try done.
  destruct (String.eqb_spec s option) as [->|Hne].
  - by rewrite bool_decide_eq_true_2.
  - rewrite bool_decide_eq_false_2; [done|]. intros [=]. by subst.
Qed.

Lemma slotEqStr_selection (l : list Slot) (i : nat) (option : string) :
  slotEqStr (slotAt l i) option
  = bool_decide (match l !! i with Some (SStr s) => Some s | _ => None end = Some option).
Proof.
  unfold slotAt. destruct (l !! i) as [[| |s]|]; simpl; try done.
  destruct (String.eqb_spec s option) as [->|Hne].
  - by rewrite bool_decide_eq_true_2.
  - rewrite bool_decide_eq_false_2; [done|]. intros [=]. by subst.
Qed.

(** C7. After checking, every option of every choice-based exercise (a
    single blank or a picture, each blank of a double or triple blank,
    each user turn of a dialogue) is annotated correct iff it is the key
    of its position, else incorrect iff it is the learner's selection at
    that position, else left neutral; in particular the key is annotated
    correct whether or not the learner selected it. *)
Theorem checked_option_annotation
    (currentExercises : list Exercise) (userAnswers : list Answer)
    (option : string) (exerciseIndex : nat) (pos : Position)
    (ex : Exercise) (a : Answer) :
  currentExercises !! exerciseIndex = Some ex →
  userAnswers !! exerciseIndex = Some a →
  wellShaped ex a = true →
  hasPosition ex pos = true →
  checkedOptionClassName currentExercises userAnswers option exerciseIndex pos
  = Returns (annotation option (keyAt ex pos) (selectionAt a pos))
  ∧ (keyAt ex pos = Some option →
     checkedOptionClassName currentExercises userAnswers option exerciseIndex pos
     = Returns "correct").
Proof.
  intros Hex Ha Hshape Hpos.
  assert (checkedOptionClassName currentExercises userAnswers option exerciseIndex pos
          = Returns (annotation option (keyAt ex pos) (selectionAt a pos))) as Hclass.
  { pose proof (answerAt_dense _ _ _ Ha (wellShaped_not_hole _ _ Hshape)) as Hat.
    unfold annotation.
    destruct ex as [ex|ex|ex|ex|ex|ex], pos as [|b|k]; try discriminate;
      unfold checkedOptionClassName.
    - unfold getOptionClassName. rewrite Hex, Hat. cbn [negb keyAt].
      rewrite eqb_key_decide, answerEqStr_selection.
      by repeat case_bool_decide.
    - destruct b; try discriminate; destruct a as [| | |s|l]; try discriminate;
        unfold getOptionClassName; rewrite Hex, Hat; cbn [negb keyAt selectionAt];
        rewrite eqb_key_decide, slotEqStr_selection; by repeat case_bool_decide.
    - destruct b; destruct a as [| | |s|l]; try discriminate;
        unfold getOptionClassName; rewrite Hex, Hat; cbn [negb keyAt selectionAt];
        rewrite eqb_key_decide, slotEqStr_selection; by repeat case_bool_decide.
    - destruct a as [| | |s|l]; try discriminate.
      cbn [hasPosition] in Hpos. apply bool_decide_eq_true_1 in Hpos.
      destruct (userTurnKey_filter _ _ Hpos) as (t & Ht & Hkey).
      unfold getDialogueOptionClassName. rewrite Hex, Hat.
      unfold valueAt. cbn [spreadValue mbind outcome_bind mret outcome_ret negb].
      unfold userTurnsOf. rewrite Ht. cbn [keyAt selectionAt]. rewrite Hkey.
      rewrite slotEqStr_selection.
      destruct (DialogueTurn.correctAnswer t) as [key|].
      + rewrite eqb_key_decide. by repeat case_bool_decide.
      + by repeat case_bool_decide.
    - unfold getOptionClassName. rewrite Hex, Hat. cbn [negb keyAt].
      rewrite eqb_key_decide, answerEqStr_selection.
      by repeat case_bool_decide. }
  split; [done|]. intros Hkey. rewrite Hclass. unfold annotation.
  by rewrite bool_decide_eq_true_2.
Qed.

Lemma checked_option_annotation_witness :
  checkedOptionClassName sampleSet sampleAnswers "Frau" 1 (blank B1) = Returns "correct".
Proof.
  refine (proj2 (checked_option_annotation sampleSet sampleAnswers "Frau" 1 (blank B1)
                   sampleDouble (AArr [SStr "bin"; SStr "Mann"]) _ _ _ _) _);
    reflexivity.
Defined.

(** ** The lesson cache *)

Lemma lessonPresent_loaded (st : State) (lessonId : string) (lesson : Lesson.t) :
  loadedLessons st !! lessonId = Some lesson → lessonPresent st lessonId = true.
Proof.
  intros Hloaded. unfold lessonPresent.
  by rewrite bool_decide_eq_true_2 by by rewrite Hloaded.
Qed.

Lemma lessonPresent_false (st : State) (lessonId : string) :
  lessonPresent st lessonId = false →
  loadedLessons st !! lessonId = None ∧ lessonId ∉ inheritedProperties.
Proof.
  unfold lessonPresent. intros [Hown Hinherited]%orb_false_elim.
  apply bool_decide_eq_false_1 in Hown, Hinherited. split; [|done].
  by apply eq_None_not_Some.
Qed.

Lemma handleSelectLesson_loaded (st : State) (lessonId : string) (lesson : Lesson.t) :
  loadedLessons st !! lessonId = Some lesson →
  (handleSelectLesson st lessonId).2 = None.
Proof.
  intros Hloaded. unfold handleSelectLesson.
  by rewrite (lessonPresent_loaded _ _ _ Hloaded).
Qed.

Lemma handleSelectLesson_cache (st : State) (lessonId : string) :
  loadedLessons (handleSelectLesson st lessonId).1 = loadedLessons st.
Proof.
  unfold handleSelectLesson. destruct (lessonPresent st lessonId) eqn:Hpresent; [done|].
  destruct (lessonInfoOf st lessonId ≫= Lesson.file) as [file|]; [|done].
  by destruct (String.eqb file "").
Qed.

(** A fetch is issued for the selected lesson only, and only when the
    cache has no entry for it. *)
Lemma handleSelectLesson_issues (st : State) (lessonId : string) (r : FetchRequest) :
  (handleSelectLesson st lessonId).2 = Some r →
  fetchLessonId r = lessonId ∧ loadedLessons st !! lessonId = None.
Proof.
  unfold handleSelectLesson. destruct (lessonPresent st lessonId) eqn:Hpresent; [done|].
  destruct (lessonInfoOf st lessonId ≫= Lesson.file) as [file|]; [|done].
  destruct (String.eqb file ""); [done|]. simpl. intros [= <-].
  split; [done|]. by apply lessonPresent_false in Hpresent as [? _].
Qed.

(** One reaction keeps a cached lesson that has no fetch in flight. *)
Lemma step_keeps_cached (w w' : World) (e : Event) (lessonId : string) (lesson : Lesson.t) :
  loadedLessons (app w) !! lessonId = Some lesson →
  notInFlight w lessonId →
  step w e = Some w' →
  loadedLessons (app w') !! lessonId = Some lesson ∧ notInFlight w' lessonId.
Proof.
  intros Hloaded Hflight. unfold step, notInFlight in *.
  destruct (offered w e); [|done]. cbn [negb].
  destruct e as [levelId|selected| | |n lessonData|n].
  - by intros [= <-].
  - destruct (handleSelectLesson (app w) selected) as [st issued] eqn:Hselect.
    intros [= <-]. cbn [app pending].
    pose proof (handleSelectLesson_cache (app w) selected) as Hcache.
    rewrite Hselect in Hcache. cbn [fst] in Hcache. rewrite Hcache. split; [done|].
    apply Forall_app. split; [done|].
    destruct issued as [r|]; [|constructor]. repeat constructor.
    destruct (handleSelectLesson_issues (app w) selected r) as [-> Hnone];
      [by rewrite Hselect|].
    intros ->. congruence.
  - by intros [= <-].
  - by intros [= <-].
  - destruct (pending w !! n) as [r|] eqn:Hr; [|done]. intros [= <-].
    cbn [app pending fetchResolved loadedLessons]. split.
    + rewrite lookup_insert_ne; [done|]. by eapply Forall_lookup_1 in Hflight.
    + by apply Forall_delete.
  - intros [= <-]. cbn [app pending]. split; [done|]. by apply Forall_delete.
Qed.

(** C8, as the code has it.  Selecting a lesson whose content is already
    loaded issues no content fetch and leaves the cache as it is; and
    once a lesson is loaded with no fetch for it in flight, no sequence
    of selections and fetch completions issues a fetch for its id or
    replaces its cached content. *)
Theorem loaded_lesson_is_not_fetched_again :
  (∀ st lessonId lesson,
     loadedLessons st !! lessonId = Some lesson →
     (handleSelectLesson st lessonId).2 = None
     ∧ loadedLessons (handleSelectLesson st lessonId).1 = loadedLessons st)
  ∧ (∀ events w w' lessonId lesson,
       loadedLessons (app w) !! lessonId = Some lesson →
       notInFlight w lessonId →
       run w events = Some w' →
       loadedLessons (app w') !! lessonId = Some lesson ∧ notInFlight w' lessonId).
Proof.
  split.
  - intros st lessonId lesson Hloaded. split.
    + by eapply handleSelectLesson_loaded.
    + apply handleSelectLesson_cache.
  - induction events as [|e events IH]; intros w w' lessonId lesson Hloaded Hflight Hrun.
    + by injection Hrun as <-.
    + cbn [run] in Hrun. destruct (step w e) as [w1|] eqn:Hstep; [|done].
      destruct (step_keeps_cached _ _ _ _ _ Hloaded Hflight Hstep) as [Hloaded1 Hflight1].
      by eapply IH.
Qed.

Lemma loaded_lesson_is_not_fetched_again_witness :
  (handleSelectLesson lesson1Cached "lesson1").2 = None
  ∧ loadedLessons (handleSelectLesson lesson1Cached "lesson1").1
    = loadedLessons lesson1Cached.
Proof.
  apply (proj1 loaded_lesson_is_not_fetched_again lesson1Cached "lesson1" lessonDataA).
  vm_compute. reflexivity.
Defined.

(** C8 fails as stated for a lesson whose fetch is in flight: selecting
    it again issues a second fetch for the same id, and the response
    that arrives second replaces the cached result of the first. *)
Lemma in_flight_lesson_is_fetched_again :
  pending <$> run (started sampleCatalog) openLesson1Twice
  = Some [lesson1Request; lesson1Request]
  ∧ (λ w, loadedLessons (app w) !! "lesson1")
    <$> run (started sampleCatalog) (openLesson1Twice ++ [FetchResolved 0 lessonDataA])
    = Some (Some lessonDataA)
  ∧ (λ w, loadedLessons (app w) !! "lesson1")
    <$> run (started sampleCatalog)
            (openLesson1Twice ++ [FetchResolved 0 lessonDataA; FetchResolved 0 lessonDataB])
    = Some (Some lessonDataB)
  ∧ lessonDataA ≠ lessonDataB.
Proof.
  split; [|split; [|split]]; [vm_compute; reflexivity..|discriminate].
Qed.

(** ** The shape of the store is an invariant *)

Lemma forallb_insert {A : Type} (p : A → bool) (l : list A) (i : nat) (x : A) :
  forallb p l = true → p x = true → forallb p (<[i:=x]> l) = true.
Proof.
  revert i. induction l as [|y l IH]; intros i Hl Hx; [done|].
  apply andb_prop in Hl as [Hy Hl]. destruct i as [|i]; simpl.
  - by rewrite Hx.
  - by rewrite Hy, IH.
Qed.

Lemma forallb_delete {A : Type} (p : A → bool) (l : list A) (i : nat) :
  forallb p l = true → forallb p (delete i l) = true.
Proof.
  revert i. induction l as [|y l IH]; intros i Hl; [done|].
  apply andb_prop in Hl as [Hy Hl]. destruct i as [|i]; simpl; [done|].
  by rewrite Hy, IH.
Qed.

Lemma forallb_replicate {A : Type} (p : A → bool) (n : nat) (x : A) :
  p x = true → forallb p (replicate n x) = true.
Proof. intros Hx. induction n as [|n IH]; [done|]. simpl. by rewrite Hx. Qed.

Lemma initialAnswer_shaped (ex : Exercise) : wellShaped ex (initialAnswer ex) = true.
Proof.
  destruct ex; try done. simpl.
  by rewrite length_replicate, Nat.eqb_refl, forallb_replicate.
Qed.

(** [initializeAnswers] produces a store of matching shape. *)
Lemma initializeAnswers_shaped (exercises : list Exercise) :
  storeShaped exercises (initializeAnswers exercises).
Proof.
  unfold storeShaped, initializeAnswers. apply Forall2_fmap_r, Forall_Forall2_diag.
  apply Forall_true, initialAnswer_shaped.
Qed.

Lemma storeShaped_dense (exercises : list Exercise) (answers : list Answer) :
  storeShaped exercises answers → dense answers.
Proof.
  unfold dense. induction 1 as [|ex a exs answers Hex _ IH]; constructor; [|done].
  by eapply wellShaped_not_hole.
Qed.

Section ShapeInvariant.
Variables (currentExercises : list Exercise) (userAnswers : list Answer).
Hypothesis shaped : storeShaped currentExercises userAnswers.

Lemma shaped_dense : dense userAnswers.
Proof. by eapply storeShaped_dense. Qed.

Lemma shaped_lookup (i : nat) (ex : Exercise) :
  currentExercises !! i = Some ex →
  ∃ a, userAnswers !! i = Some a ∧ wellShaped ex a = true.
Proof. intros Hex. by eapply Forall2_lookup_l in shaped. Qed.

(** Replacing the entry of an exercise by a well-shaped answer keeps
    the store well-shaped. *)
Lemma shaped_insert (i : nat) (ex : Exercise) (a : Answer) :
  currentExercises !! i = Some ex →
  wellShaped ex a = true →
  storeShaped currentExercises (<[i:=a]> userAnswers).
Proof.
  intros Hex Ha. rewrite <- (list_insert_id currentExercises i ex Hex).
  by apply Forall2_insert.
Qed.

(** Choosing an option at a position the exercise has, the way the
    blank and picture views call [handleAnswerSelect]. *)
Lemma handleAnswerSelect_shaped (i : nat) (ex : Exercise) (selectedOption : string)
    (blankIndex : option BlankIndex) :
  currentExercises !! i = Some ex →
  hasPosition ex (from_option blank whole blankIndex) = true →
  ∃ chosen,
    handleAnswerSelect currentExercises false userAnswers i selectedOption blankIndex
    = Returns chosen
    ∧ storeShaped currentExercises chosen.
Proof.
  intros Hex Hpos. destruct (shaped_lookup i ex Hex) as (a & Ha & Hshape).
  pose proof (lookup_lt_Some _ _ _ Ha) as Hlt.
  pose proof (answerAt_dense _ _ _ Ha (wellShaped_not_hole _ _ Hshape)) as Hat.
  unfold handleAnswerSelect. rewrite spreadAnswers_dense, Hex, Hat by apply shaped_dense.
  destruct ex as [ex|ex|ex|ex|ex|ex], blankIndex as [b|]; try discriminate;
    cbn [from_option] in Hpos.
  - eexists. split; [done|]. rewrite arraySet_in_range by done. by eapply shaped_insert.
  - destruct a as [| | |s|l]; try discriminate.
    apply andb_prop in Hshape as [Hlen Hopt]. apply Nat.eqb_eq in Hlen.
    cbn [orElse truthy spreadValue mbind outcome_bind]. eexists. split; [done|].
    rewrite arraySet_in_range by done.
    rewrite arraySet_in_range by (destruct b; try discriminate; simpl; lia).
    eapply shaped_insert; [done|]. simpl.
    by rewrite length_insert, Hlen, forallb_insert.
  - destruct a as [| | |s|l]; try discriminate.
    apply andb_prop in Hshape as [Hlen Hopt]. apply Nat.eqb_eq in Hlen.
    cbn [orElse truthy spreadValue mbind outcome_bind]. eexists. split; [done|].
    rewrite arraySet_in_range by done.
    rewrite arraySet_in_range by (destruct b; simpl; lia).
    eapply shaped_insert; [done|]. simpl.
    by rewrite length_insert, Hlen, forallb_insert.
  - eexists. split; [done|]. rewrite arraySet_in_range by done. by eapply shaped_insert.
Qed.

(** Moving a word of a scramble, in either direction. *)
Lemma handleWordMove_shaped (i : nat) (ex : SentenceScrambleExercise.t) (word : string)
    (source : WordSource) (wordIndexInSentence : option nat) :
  currentExercises !! i = Some (sentence_scramble ex) →
  ∃ moved,
    handleWordMove false userAnswers i word source wordIndexInSentence = Returns moved
    ∧ storeShaped currentExercises moved.
Proof.
  intros Hex. destruct (shaped_lookup i _ Hex) as (a & Ha & Hshape).
  destruct a as [| | |s|built]; try discriminate. simpl in Hshape.
  rewrite (handleWordMove_on_array _ _ built) by (done || apply shaped_dense).
  eexists. split; [done|]. eapply shaped_insert; [done|]. simpl.
  destruct source, wordIndexInSentence; try done.
  - by rewrite forallb_app, Hshape.
  - by rewrite forallb_app, Hshape.
  - by apply forallb_delete.
Qed.

(** Choosing an option for a user turn of a dialogue. *)
Lemma handleDialogueAnswer_shaped (i : nat) (ex : DialogueSimulationExercise.t)
    (userTurnIndex : nat) (choice : string) :
  currentExercises !! i = Some (dialogue_simulation ex) →
  userTurnIndex < length (userTurnsOf ex) →
  ∃ chosen,
    handleDialogueAnswer false userAnswers i userTurnIndex choice = Returns chosen
    ∧ storeShaped currentExercises chosen.
Proof.
  intros Hex Hturn. destruct (shaped_lookup i _ Hex) as (a & Ha & Hshape).
  destruct a as [| | |s|l]; try discriminate.
  apply andb_prop in Hshape as [Hlen Hopt]. apply Nat.eqb_eq in Hlen.
  pose proof (lookup_lt_Some _ _ _ Ha) as Hlt.
  unfold handleDialogueAnswer.
  rewrite spreadAnswers_dense, (answerAt_dense _ _ _ Ha) by (done || apply shaped_dense).
  cbn [spreadValue mbind outcome_bind]. eexists. split; [done|].
  rewrite arraySet_in_range by done. rewrite arraySet_in_range by lia.
  eapply shaped_insert; [done|]. simpl.
  by rewrite length_insert, Hlen, Nat.eqb_refl, forallb_insert.
Qed.
End ShapeInvariant.

(** * Further properties *)

(** ** The answer store and its mutators *)

Lemma nulls_replicate (l : list Slot) :
  forallb nullSlot l = true → l = replicate (length l) SNull.
Proof.
  induction l as [|v l IH]; [done|]. intros [Hv Hl]%andb_prop.
  destruct v; try discriminate. simpl. by rewrite <- IH.
Qed.

Lemma initialAnswer_unset (ex : Exercise) : unset (initialAnswer ex) = true.
Proof. destruct ex; try done. simpl. by apply forallb_replicate. Qed.

(** The unset answer of the shape of an exercise is its initial
    answer. *)
Lemma unset_shaped_initial (ex : Exercise) (a : Answer) :
  wellShaped ex a = true → unset a = true → a = initialAnswer ex.
Proof.
  intros Hshape Hunset.
  destruct ex as [ex|ex|ex|ex|ex|ex], a as [| | |s|l]; try discriminate; try done;
    cbn [wellShaped unset initialAnswer] in *.
  - apply andb_prop in Hshape as [Hlen _]. apply Nat.eqb_eq in Hlen.
    by rewrite (nulls_replicate l Hunset), Hlen.
  - apply andb_prop in Hshape as [Hlen _]. apply Nat.eqb_eq in Hlen.
    by rewrite (nulls_replicate l Hunset), Hlen.
  - destruct l as [|v l]; [done|]. cbn [forallb] in *.
    apply andb_prop in Hshape as [Hv _]. apply andb_prop in Hunset as [Hv' _].
    by destruct v.
  - apply andb_prop in Hshape as [Hlen _]. apply Nat.eqb_eq in Hlen.
    by rewrite (nulls_replicate l Hunset), Hlen.
Qed.

(** X1. [initializeAnswers] gives one answer per exercise, of the shape
    of its exercise and unset, and leaves no hole in the store: it is
    the only store of matching shape in which every answer is unset
    ([null] for a single blank or a picture, two or three [null]s for a
    double or triple blank, the empty sequence for a scramble, one
    [null] per user turn for a dialogue). *)
Theorem initial_store_matches_set (exercises : list Exercise) :
  storeShaped exercises (initializeAnswers exercises)
  ∧ length (initializeAnswers exercises) = length exercises
  ∧ dense (initializeAnswers exercises)
  ∧ Forall (λ a, unset a = true) (initializeAnswers exercises)
  ∧ (∀ answers,
       storeShaped exercises answers →
       Forall (λ a, unset a = true) answers →
       answers = initializeAnswers exercises).
Proof.
  pose proof (initializeAnswers_shaped exercises) as Hshape.
  split; [done|]. split; [|split; [|split]].
  - symmetry. by apply storeShaped_length.
  - by eapply storeShaped_dense.
  - unfold initializeAnswers. apply Forall_fmap, Forall_true. intros ex.
    apply initialAnswer_unset.
  - intros answers Hshaped Hunset. unfold initializeAnswers.
    induction Hshaped as [|ex a exs rest Hex _ IH]; [done|].
    apply Forall_cons in Hunset as [Ha Hrest].
    rewrite fmap_cons, (unset_shaped_initial ex a Hex Ha). f_equal.
    apply IH; [apply initializeAnswers_shaped|done].
Qed.

Lemma handleAnswerSelect_on_shaped (currentExercises : list Exercise)
    (userAnswers : list Answer) (i : nat) (ex : Exercise) (a : Answer)
    (selectedOption : string) (blankIndex : option BlankIndex) :
  storeShaped currentExercises userAnswers →
  currentExercises !! i = Some ex →
  userAnswers !! i = Some a →
  hasPosition ex (from_option blank whole blankIndex) = true →
  handleAnswerSelect currentExercises false userAnswers i selectedOption blankIndex
  = Returns (<[i := match blankIndex, a with
                    | Some b, AArr l => AArr (<[blankPos b := SStr selectedOption]> l)
                    | _, _ => AStr selectedOption
                    end]> userAnswers).
Proof.
  intros Hshaped Hex Ha Hpos.
  destruct (shaped_lookup _ _ Hshaped i ex Hex) as (a' & Ha' & Hshape).
  assert (a' = a) as -> by congruence.
  pose proof (lookup_lt_Some _ _ _ Ha) as Hlt.
  pose proof (answerAt_dense _ _ _ Ha (wellShaped_not_hole _ _ Hshape)) as Hat.
  unfold handleAnswerSelect.
  rewrite spreadAnswers_dense, Hex, Hat by by eapply storeShaped_dense.
  destruct ex as [ex|ex|ex|ex|ex|ex], blankIndex as [b|]; try discriminate;
    cbn [from_option] in Hpos.
  - cbn [mret outcome_ret]. f_equal. by apply arraySet_in_range.
  - destruct a as [| | |s|l]; try discriminate.
    apply andb_prop in Hshape as [Hlen Hopt]. apply Nat.eqb_eq in Hlen.
    cbn [orElse truthy spreadValue mbind outcome_bind mret outcome_ret]. f_equal.
    rewrite arraySet_in_range by done.
    by rewrite arraySet_in_range by (destruct b; try discriminate; simpl; lia).
  - destruct a as [| | |s|l]; try discriminate.
    apply andb_prop in Hshape as [Hlen Hopt]. apply Nat.eqb_eq in Hlen.
    cbn [orElse truthy spreadValue mbind outcome_bind mret outcome_ret]. f_equal.
    rewrite arraySet_in_range by done.
    by rewrite arraySet_in_range by (destruct b; simpl; lia).
  - cbn [mret outcome_ret]. f_equal. by apply arraySet_in_range.
Qed.

(** X2. On a store of matching shape, choosing an option at a position
    the exercise has (the whole answer of a single blank or a picture,
    a blank of a double or triple blank) rewrites the entry of that
    exercise only: the whole answer becomes the option, or the slot of
    the blank becomes the option while the other slots stay; the store
    keeps its length and its shape. *)
Theorem answer_select_writes_one_position (currentExercises : list Exercise)
    (userAnswers : list Answer) (i : nat) (ex : Exercise) (a : Answer)
    (selectedOption : string) (blankIndex : option BlankIndex) :
  storeShaped currentExercises userAnswers →
  currentExercises !! i = Some ex →
  userAnswers !! i = Some a →
  hasPosition ex (from_option blank whole blankIndex) = true →
  ∃ chosen,
    handleAnswerSelect currentExercises false userAnswers i selectedOption blankIndex
    = Returns chosen
    ∧ chosen = <[i := match blankIndex, a with
                      | Some b, AArr l => AArr (<[blankPos b := SStr selectedOption]> l)
                      | _, _ => AStr selectedOption
                      end]> userAnswers
    ∧ length chosen = length userAnswers
    ∧ (∀ j, j ≠ i → chosen !! j = userAnswers !! j)
    ∧ storeShaped currentExercises chosen.
Proof.
  intros Hshaped Hex Ha Hpos.
  pose proof (handleAnswerSelect_on_shaped _ _ _ _ _ selectedOption _ Hshaped Hex Ha Hpos)
    as Hcall.
  destruct (handleAnswerSelect_shaped _ _ Hshaped i ex selectedOption blankIndex Hex Hpos)
    as (chosen & Hcall' & Hchosen).
  exists chosen. split; [done|].
  assert (chosen = <[i := match blankIndex, a with
                          | Some b, AArr l => AArr (<[blankPos b := SStr selectedOption]> l)
                          | _, _ => AStr selectedOption
                          end]> userAnswers) as Heq by congruence.
  split; [done|]. split; [|split; [|done]].
  - rewrite Heq. apply length_insert.
  - intros j Hj. rewrite Heq. by apply list_lookup_insert_ne.
Qed.

Lemma answer_select_writes_one_position_witness :
  ∃ chosen,
    handleAnswerSelect sampleSet false sampleAnswers 1 "Frau" (Some B1) = Returns chosen
    ∧ chosen = <[1 := AArr (<[1 := SStr "Frau"]> [SStr "bin"; SStr "Mann"])]> sampleAnswers
    ∧ length chosen = length sampleAnswers
    ∧ (∀ j, j ≠ 1 → chosen !! j = sampleAnswers !! j)
    ∧ storeShaped sampleSet chosen.
Proof.
  refine (answer_select_writes_one_position sampleSet sampleAnswers 1 sampleDouble
            (AArr [SStr "bin"; SStr "Mann"]) "Frau" (Some B1) _ _ _ _);
    [repeat constructor|reflexivity..].
Defined.

(** X3. On a store of matching shape, choosing an option for a user
    turn of a dialogue rewrites the slot of that turn only: the other
    slots and the other entries stay, and the store keeps its length and
    its shape. *)
Theorem dialogue_answer_writes_one_turn (currentExercises : list Exercise)
    (userAnswers : list Answer) (i : nat) (ex : DialogueSimulationExercise.t)
    (tuple : list Slot) (userTurnIndex : nat) (choice : string) :
  storeShaped currentExercises userAnswers →
  currentExercises !! i = Some (dialogue_simulation ex) →
  userAnswers !! i = Some (AArr tuple) →
  userTurnIndex < length (userTurnsOf ex) →
  ∃ chosen,
    handleDialogueAnswer false userAnswers i userTurnIndex choice = Returns chosen
    ∧ chosen = <[i := AArr (<[userTurnIndex := SStr choice]> tuple)]> userAnswers
    ∧ length chosen = length userAnswers
    ∧ (∀ j, j ≠ i → chosen !! j = userAnswers !! j)
    ∧ storeShaped currentExercises chosen.
Proof.
  intros Hshaped Hex Ha Hturn.
  destruct (handleDialogueAnswer_shaped _ _ Hshaped i ex userTurnIndex choice Hex Hturn)
    as (chosen & Hcall & Hchosen).
  exists chosen. split; [done|].
  assert (chosen = <[i := AArr (<[userTurnIndex := SStr choice]> tuple)]> userAnswers)
    as Heq.
  { destruct (shaped_lookup _ _ Hshaped i _ Hex) as (a' & Ha' & Hshape).
    assert (a' = AArr tuple) as -> by congruence.
    apply andb_prop in Hshape as [Hlen _]. apply Nat.eqb_eq in Hlen.
    pose proof (lookup_lt_Some _ _ _ Ha) as Hlt.
    revert Hcall. unfold handleDialogueAnswer.
    rewrite spreadAnswers_dense, (answerAt_dense _ _ _ Ha)
      by (done || by eapply storeShaped_dense).
    cbn [spreadValue mbind outcome_bind mret outcome_ret].
    rewrite arraySet_in_range by done. rewrite (arraySet_in_range SUndefined) by lia.
    by intros [= <-]. }
  split; [done|]. split; [|split; [|done]].
  - rewrite Heq. apply length_insert.
  - intros j Hj. rewrite Heq. by apply list_lookup_insert_ne.
Qed.

Lemma dialogue_answer_writes_one_turn_witness :
  ∃ chosen,
    handleDialogueAnswer false (initializeAnswers sampleSet) 4 1 "Ein Bier, bitte."
    = Returns chosen
    ∧ chosen = <[4 := AArr (<[1 := SStr "Ein Bier, bitte."]> [SNull; SNull])]>
                 (initializeAnswers sampleSet)
    ∧ length chosen = length (initializeAnswers sampleSet)
    ∧ (∀ j, j ≠ 4 → chosen !! j = initializeAnswers sampleSet !! j)
    ∧ storeShaped sampleSet chosen.
Proof.
  refine (dialogue_answer_writes_one_turn sampleSet (initializeAnswers sampleSet) 4
            (DialogueSimulationExercise.mk "At the bakery" "Buying bread"
               [agentTurn "Guten Tag!";
                userTurn "Greet back" ["Guten Tag!"; "Gute Nacht!"] "Guten Tag!";
                agentTurn "Was darf es sein?";
                agentTurn "Wir haben Brot.";
                userTurn "Order bread" ["Ein Brot, bitte."; "Ein Bier, bitte."]
                         "Ein Brot, bitte."])
            [SNull; SNull] 1 "Ein Bier, bitte." _ _ _ _);
    [repeat constructor|reflexivity|reflexivity|simpl; lia].
Defined.

Lemma delete_beyond {A : Type} (l : list A) (k : nat) :
  length l ≤ k → delete k l = l.
Proof.
  revert k. induction l as [|x l IH]; intros [|k] Hk; simpl in *; try done; [lia|].
  by rewrite IH by lia.
Qed.

(** X4. On a store of matching shape, moving a word of a scramble
    rewrites the built sentence of that exercise only.  From the bank the
    word is appended, so the sentence grows by one; from the sentence the
    word at the position is removed whatever word is passed along, so the
    sentence shrinks by one, and a position past its end, or none, leaves
    the store as it is.  The store keeps its shape. *)
Theorem word_move_appends_or_removes_one (currentExercises : list Exercise)
    (userAnswers : list Answer) (i : nat) (ex : SentenceScrambleExercise.t)
    (built : list Slot) (word : string) :
  storeShaped currentExercises userAnswers →
  currentExercises !! i = Some (sentence_scramble ex) →
  userAnswers !! i = Some (AArr built) →
  handleWordMove false userAnswers i word bank None
  = Returns (<[i := AArr (built ++ [SStr word])]> userAnswers)
  ∧ storeShaped currentExercises (<[i := AArr (built ++ [SStr word])]> userAnswers)
  ∧ (∀ k, k < length built →
       handleWordMove false userAnswers i word sentence (Some k)
       = Returns (<[i := AArr (delete k built)]> userAnswers)
       ∧ length (delete k built) + 1 = length built
       ∧ storeShaped currentExercises (<[i := AArr (delete k built)]> userAnswers))
  ∧ (∀ k, length built ≤ k →
       handleWordMove false userAnswers i word sentence (Some k) = Returns userAnswers)
  ∧ handleWordMove false userAnswers i word sentence None = Returns userAnswers.
Proof.
  intros Hshaped Hex Ha.
  pose proof (storeShaped_dense _ _ Hshaped) as Hdense.
  destruct (shaped_lookup _ _ Hshaped i _ Hex) as (a' & Ha' & Hshape).
  assert (a' = AArr built) as -> by congruence. simpl in Hshape.
  split; [|split; [|split; [|split]]].
  - by rewrite (handleWordMove_on_array _ _ built).
  - eapply shaped_insert; [done..|]. simpl. by rewrite forallb_app, Hshape.
  - intros k Hk. split; [|split].
    + by rewrite (handleWordMove_on_array _ _ built).
    + rewrite length_delete by by apply lookup_lt_is_Some_2. lia.
    + eapply shaped_insert; [done..|]. simpl. by apply forallb_delete.
  - intros k Hk. rewrite (handleWordMove_on_array _ _ built) by done.
    rewrite delete_beyond by done. by rewrite list_insert_id.
  - rewrite (handleWordMove_on_array _ _ built) by done. by rewrite list_insert_id.
Qed.

Lemma word_move_appends_or_removes_one_witness :
  handleWordMove false sampleAnswers 3 "bald" bank None
  = Returns (<[3 := AArr ([SStr "Ich"; SStr "nach"; SStr "gehe"; SStr "Hause"]
                          ++ [SStr "bald"])]> sampleAnswers).
Proof.
  refine (proj1 (word_move_appends_or_removes_one sampleSet sampleAnswers 3
            (SentenceScrambleExercise.mk "I am going home."
               "Ich gehe nach Hause" ["Ich"; "gehe"; "nach"; "Hause"])
            [SStr "Ich"; SStr "nach"; SStr "gehe"; SStr "Hause"] "bald" _ _ _));
    [repeat constructor|reflexivity|reflexivity].
Defined.

(** ** Calls that throw *)

(** X5. While the set is not checked, [handleAnswerSelect] throws exactly
    when no exercise stands at the index, whatever the answer store
    holds. *)
Theorem answer_select_throws_iff_no_exercise (currentExercises : list Exercise)
    (userAnswers : list Answer) (exerciseIndex : nat) (selectedOption : string)
    (blankIndex : option BlankIndex) :
  handleAnswerSelect currentExercises false userAnswers exerciseIndex selectedOption
                     blankIndex = Throws
  ↔ length currentExercises ≤ exerciseIndex.
Proof.
  unfold handleAnswerSelect. split.
  - intros Hthrows. apply lookup_ge_None.
    destruct (currentExercises !! exerciseIndex) as [ex|]; [|done]. exfalso.
    destruct ex, blankIndex; try done.
    all: match type of Hthrows with
         | context [orElse ?a (AArr ?d)] =>
             destruct (spreadValue_orElse_array a d) as [l Hl]; by rewrite Hl in Hthrows
         end.
  - intros Hge. by rewrite lookup_ge_None_2.
Qed.

(** X6. While the set is not checked, [handleDialogueAnswer] throws
    exactly when the entry at the index is missing, a hole, [undefined]
    or [null]; on a tuple or a string it returns. *)
Theorem dialogue_answer_throws_iff_unset_entry (userAnswers : list Answer)
    (exerciseIndex userTurnIndex : nat) (choice : string) :
  handleDialogueAnswer false userAnswers exerciseIndex userTurnIndex choice = Throws
  ↔ (userAnswers !! exerciseIndex = None
     ∨ userAnswers !! exerciseIndex = Some AHole
     ∨ userAnswers !! exerciseIndex = Some AUndefined
     ∨ userAnswers !! exerciseIndex = Some ANull).
Proof.
  unfold handleDialogueAnswer, answerAt, spreadAnswers. rewrite list_lookup_fmap.
  destruct (userAnswers !! exerciseIndex) as [[| | |s|l]|]; simpl;
    unfold mret, outcome_ret; intuition congruence.
Qed.

(** The loop of [checkAnswers] throws exactly when it meets an entry,
    not a hole, at an index where the set has no exercise. *)
Lemma gradeLoop_throws (exercises : list Exercise) (answers : list Answer) (i acc : nat) :
  forEachFrom (gradeEntry exercises) answers i acc = Throws
  ↔ ∃ j a, answers !! j = Some a ∧ isHole a = false ∧ length exercises ≤ i + j.
Proof.
  revert i acc. induction answers as [|a answers IH]; intros i acc.
  - split; [done|]. by intros (j & b & Hj & _).
  - cbn [forEachFrom]. destruct (isHole a) eqn:Ha.
    + rewrite IH. split.
      * intros (j & b & Hj & Hb & Hle). exists (S j), b. split; [done|]. split; [done|lia].
      * intros (j & b & Hj & Hb & Hle). destruct j as [|j]; [simpl in Hj; congruence|].
        exists j, b. split; [done|]. split; [done|lia].
    + assert (gradeEntry exercises a i acc
              = match exercises !! i with
                | Some ex => Returns (if gradedCorrect ex a then S acc else acc)
                | None => Throws
                end) as -> by done.
      destruct (exercises !! i) as [ex|] eqn:Hex.
      * cbn [mbind outcome_bind]. rewrite IH. apply lookup_lt_Some in Hex. split.
        -- intros (j & b & Hj & Hb & Hle). exists (S j), b. split; [done|]. split; [done|lia].
        -- intros (j & b & Hj & Hb & Hle). destruct j as [|j]; [lia|].
           exists j, b. split; [done|]. split; [done|lia].
      * split; [|done]. intros _. exists 0, a. split; [done|]. split; [done|].
        apply lookup_ge_None in Hex. lia.
Qed.

(** The score the loop returns lies between the score it started from
    and that score plus the entries, and the exercises, still ahead. *)
Lemma gradeLoop_bound (exercises : list Exercise) (answers : list Answer) (i acc n : nat) :
  forEachFrom (gradeEntry exercises) answers i acc = Returns n →
  acc ≤ n ∧ n ≤ acc + length answers ∧ n ≤ acc + (length exercises - i).
Proof.
  revert i acc. induction answers as [|a answers IH]; intros i acc.
  - intros [= <-]. simpl. lia.
  - cbn [forEachFrom length]. destruct (isHole a).
    + intros Hrest. apply IH in Hrest. lia.
    + assert (gradeEntry exercises a i acc
              = match exercises !! i with
                | Some ex => Returns (if gradedCorrect ex a then S acc else acc)
                | None => Throws
                end) as -> by done.
      destruct (exercises !! i) as [ex|] eqn:Hex; [|done].
      cbn [mbind outcome_bind]. intros Hrest. apply IH in Hrest.
      apply lookup_lt_Some in Hex. destruct (gradedCorrect ex a); lia.
Qed.

(** ** The grader *)

(** X7. [checkAnswers] throws exactly when the answers array holds an
    entry, not a hole, at an index where the set has no exercise;
    otherwise it returns a score that exceeds neither the number of
    answers nor the number of exercises. *)
Theorem checkAnswers_throws_or_bounded
    (currentExercises : list Exercise) (userAnswers : list Answer) :
  (checkAnswers currentExercises userAnswers = Throws
   ↔ ∃ j a, userAnswers !! j = Some a ∧ isHole a = false ∧ length currentExercises ≤ j)
  ∧ (∀ n, checkAnswers currentExercises userAnswers = Returns n →
          n ≤ length userAnswers ∧ n ≤ length currentExercises).
Proof.
  unfold checkAnswers. split.
  - by rewrite gradeLoop_throws.
  - intros n Hn. apply gradeLoop_bound in Hn. lia.
Qed.

(** X8. Whenever the check button is enabled, checking succeeds:
    [checkAnswers] returns a score, at most the number of exercises. *)
Theorem enabled_check_returns_a_score
    (currentExercises : list Exercise) (userAnswers : list Answer) :
  gateOpen currentExercises userAnswers →
  ∃ n, checkAnswers currentExercises userAnswers = Returns n
       ∧ n ≤ length currentExercises.
Proof.
  unfold gateOpen, isCheckButtonDisabled, checkAnswers.
  destruct (Nat.eqb (length currentExercises) 0); [done|]. intros Hopen.
  destruct (forEachFrom (gradeEntry currentExercises) userAnswers 0 0) as [n|] eqn:Hgrade.
  - exists n. split; [done|]. apply gradeLoop_bound in Hgrade. lia.
  - exfalso. apply gradeLoop_throws in Hgrade as (j & a & Hj & Ha & Hle).
    pose proof (someFrom_false _ _ _ Hopen j a Hj Ha) as Hentry.
    unfold incompleteEntry in Hentry. cbn [Nat.add] in Hentry.
    by rewrite lookup_ge_None_2 in Hentry by lia.
Qed.

Lemma enabled_check_returns_a_score_witness :
  ∃ n, checkAnswers [sampleSingle; sampleImage] [AStr "bist"; AStr "der Apfel"] = Returns n
       ∧ n ≤ length [sampleSingle; sampleImage].
Proof.
  apply (enabled_check_returns_a_score [sampleSingle; sampleImage]
           [AStr "bist"; AStr "der Apfel"]).
  reflexivity.
Defined.

Lemma everyFrom_forall {A : Type} (p : A → nat → bool) (l : list A) (i : nat) :
  everyFrom p l i = true ↔ ∀ k x, l !! k = Some x → p x (i + k) = true.
Proof.
  revert i. induction l as [|y l IH]; intros i; [done|].
  cbn [everyFrom]. rewrite andb_true_iff, IH. split.
  - intros [Hy Hl] [|k] x Hk; simpl in Hk.
    + injection Hk as <-. by rewrite Nat.add_0_r.
    + replace (i + S k) with (S i + k) by lia. by apply Hl.
  - intros Hall. split.
    + specialize (Hall 0 y eq_refl). by rewrite Nat.add_0_r in Hall.
    + intros k x Hk. replace (S i + k) with (i + S k) by lia. by apply Hall.
Qed.

Lemma slotEqStr_true (l : list Slot) (i : nat) (key : string) :
  slotEqStr (slotAt l i) key = true ↔ l !! i = Some (SStr key).
Proof.
  unfold slotAt. destruct (l !! i) as [[| |s]|]; simpl; try (split; congruence).
  rewrite String.eqb_eq. split; congruence.
Qed.

Lemma selectionAt_slot (l : list Slot) (i : nat) (key : string) :
  match l !! i with Some (SStr s) => Some s | _ => None end = Some key
  ↔ l !! i = Some (SStr key).
Proof. destruct (l !! i) as [[| |s]|]; split; congruence. Qed.

Lemma slotEqOpt_true (l : list Slot) (k : nat) (key : option string) :
  forallb optionalChoice l = true →
  k < length l →
  slotEqOpt (slotAt l k) key = true ↔ ∃ s, key = Some s ∧ l !! k = Some (SStr s).
Proof.
  intros Hopt Hk. unfold slotAt.
  destruct (lookup_lt_is_Some_2 l k Hk) as [v Hv]. rewrite Hv. simpl.
  assert (optionalChoice v = true) as Hv'.
  { rewrite forallb_forall in Hopt. apply Hopt.
    apply list_elem_of_In. by eapply list_elem_of_lookup_2. }
  destruct v as [| |s], key as [key|]; try discriminate; simpl.
  - split; [done|]. by intros (s & _ & ?).
  - split; [done|]. by intros (s & ? & _).
  - rewrite String.eqb_eq. split.
    + intros ->. by exists key.
    + intros (s' & [= ->] & [= ->]). done.
  - split; [done|]. by intros (s' & ? & _).
Qed.

(** The user turn met at a user-turn index by walking the dialogue is the
    one found there after filtering. *)
Lemma userTurns_lookup (dialogue : list DialogueTurn.t) (k : nat) (t : DialogueTurn.t) :
  List.filter isUserTurn dialogue !! k = Some t →
  k < userTurnCount dialogue ∧ userTurnKey dialogue k = DialogueTurn.correctAnswer t.
Proof.
  intros Hk. pose proof (lookup_lt_Some _ _ _ Hk) as Hlt.
  rewrite <- userTurnCount_filter in Hlt. split; [done|].
  destruct (userTurnKey_filter dialogue k Hlt) as (t' & Ht' & Hkey). congruence.
Qed.

(** On a well-shaped answer, a choice-based exercise is graded correct
    exactly when every position it has holds the key of that position. *)
Lemma gradedCorrect_iff_keys (ex : Exercise) (a : Answer) :
  choiceBased ex = true →
  wellShaped ex a = true →
  gradedCorrect ex a = true
  ↔ ∀ pos, hasPosition ex pos = true →
           ∃ key, keyAt ex pos = Some key ∧ selectionAt a pos = Some key.
Proof.
  intros Hchoice Hshape.
  destruct ex as [ex|ex|ex|ex|ex|ex], a as [| | |s|l]; try discriminate;
    cbn [gradedCorrect answerEqStr].
  - split; [done|]. intros Hall. by destruct (Hall whole eq_refl) as (? & _ & ?).
  - rewrite String.eqb_eq. split.
    + intros -> [|b|k] Hpos; try discriminate. by eexists.
    + intros Hall. destruct (Hall whole eq_refl) as (key & Hkey & Hsel).
      simpl in *. congruence.
  - rewrite andb_true_iff, !slotEqStr_true. split.
    + intros [H0 H1] [|[]|k] Hpos; try discriminate; eexists; (split; [done|]);
        cbn [selectionAt blankPos]; by apply selectionAt_slot.
    + intros Hall.
      destruct (Hall (blank B0) eq_refl) as (k0 & [= <-] & H0).
      destruct (Hall (blank B1) eq_refl) as (k1 & [= <-] & H1).
      cbn [selectionAt blankPos] in *. by rewrite selectionAt_slot in H0, H1.
  - rewrite !andb_true_iff, !slotEqStr_true. split.
    + intros [[H0 H1] H2] [|[]|k] Hpos; try discriminate; eexists; (split; [done|]);
        cbn [selectionAt blankPos]; by apply selectionAt_slot.
    + intros Hall.
      destruct (Hall (blank B0) eq_refl) as (k0 & [= <-] & H0).
      destruct (Hall (blank B1) eq_refl) as (k1 & [= <-] & H1).
      destruct (Hall (blank B2) eq_refl) as (k2 & [= <-] & H2).
      cbn [selectionAt blankPos] in *. by rewrite selectionAt_slot in H0, H1, H2.
  - apply andb_prop in Hshape as [Hlen Hopt]. apply Nat.eqb_eq in Hlen.
    unfold userTurnsOf in *. rewrite everyFrom_forall. split.
    + intros Hall [|b|k] Hpos; try discriminate.
      cbn [hasPosition] in Hpos. apply bool_decide_eq_true_1 in Hpos.
      destruct (userTurnKey_filter _ _ Hpos) as (t & Ht & Hkey).
      specialize (Hall k t Ht). cbn [Nat.add] in Hall.
      apply slotEqOpt_true in Hall as (s & Hs & Hl);
        [|done|rewrite Hlen, <- userTurnCount_filter; lia].
      exists s. cbn [keyAt selectionAt]. split; [congruence|]. by apply selectionAt_slot.
    + intros Hall k t Ht. destruct (userTurns_lookup _ _ _ Ht) as [Hk Hkey].
      destruct (Hall (turn k)) as (s & Hs & Hsel).
      { cbn [hasPosition]. by apply bool_decide_eq_true_2. }
      cbn [keyAt selectionAt Nat.add] in *. apply selectionAt_slot in Hsel.
      apply slotEqOpt_true; [done|by eapply lookup_lt_Some|].
      exists s. split; [congruence|done].
  - split; [done|]. intros Hall. by destruct (Hall whole eq_refl) as (? & _ & ?).
  - rewrite String.eqb_eq. split.
    + intros -> [|b|k] Hpos; try discriminate. by eexists.
    + intros Hall. destruct (Hall whole eq_refl) as (key & Hkey & Hsel).
      simpl in *. congruence.
Qed.

(** After checking, the class name of an option is the annotation of
    its key and of the selection at its position. *)
Lemma checkedOptionClassName_annotation
    (currentExercises : list Exercise) (userAnswers : list Answer)
    (option : string) (exerciseIndex : nat) (pos : Position)
    (ex : Exercise) (a : Answer) :
  currentExercises !! exerciseIndex = Some ex →
  userAnswers !! exerciseIndex = Some a →
  wellShaped ex a = true →
  hasPosition ex pos = true →
  checkedOptionClassName currentExercises userAnswers option exerciseIndex pos
  = Returns (annotation option (keyAt ex pos) (selectionAt a pos)).
Proof.
  intros Hex Ha Hshape Hpos.
  pose proof (answerAt_dense _ _ _ Ha (wellShaped_not_hole _ _ Hshape)) as Hat.
  unfold annotation.
  destruct ex as [ex|ex|ex|ex|ex|ex], pos as [|b|k]; try discriminate;
    unfold checkedOptionClassName.
  - unfold getOptionClassName. rewrite Hex, Hat. cbn [negb keyAt].
    rewrite eqb_key_decide, answerEqStr_selection. by repeat case_bool_decide.
  - destruct b; try discriminate; destruct a as [| | |s|l]; try discriminate;
      unfold getOptionClassName; rewrite Hex, Hat; cbn [negb keyAt selectionAt];
      rewrite eqb_key_decide, slotEqStr_selection; by repeat case_bool_decide.
  - destruct b; destruct a as [| | |s|l]; try discriminate;
      unfold getOptionClassName; rewrite Hex, Hat; cbn [negb keyAt selectionAt];
      rewrite eqb_key_decide, slotEqStr_selection; by repeat case_bool_decide.
  - destruct a as [| | |s|l]; try discriminate.
    cbn [hasPosition] in Hpos. apply bool_decide_eq_true_1 in Hpos.
    destruct (userTurnKey_filter _ _ Hpos) as (t & Ht & Hkey).
    unfold getDialogueOptionClassName. rewrite Hex, Hat.
    unfold valueAt. cbn [spreadValue mbind outcome_bind mret outcome_ret negb].
    unfold userTurnsOf. rewrite Ht. cbn [keyAt selectionAt]. rewrite Hkey.
    rewrite slotEqStr_selection.
    destruct (DialogueTurn.correctAnswer t) as [key|].
    + rewrite eqb_key_decide. by repeat case_bool_decide.
    + by repeat case_bool_decide.
  - unfold getOptionClassName. rewrite Hex, Hat. cbn [negb keyAt].
    rewrite eqb_key_decide, answerEqStr_selection. by repeat case_bool_decide.
Qed.

Lemma annotation_incorrect (option : string) (key selection : Datatypes.option string) :
  annotation option key selection = "incorrect"
  ↔ key ≠ Some option ∧ selection = Some option.
Proof. unfold annotation. repeat case_bool_decide; split; (done || by intros [? ?]). Qed.

(** When [every] answers [false], the callback returned [false] on some
    element. *)
Lemma everyFrom_false {A : Type} (p : A → nat → bool) (l : list A) (i : nat) :
  everyFrom p l i = false → ∃ k x, l !! k = Some x ∧ p x (i + k) = false.
Proof.
  revert i. induction l as [|y l IH]; intros i; [done|]. cbn [everyFrom].
  destruct (p y i) eqn:Hy.
  - intros Hl. destruct (IH _ Hl) as (k & x & Hk & Hx). exists (S k), x.
    split; [done|]. by replace (i + S k) with (S i + k) by lia.
  - intros _. exists 0, y. split; [done|]. by rewrite Nat.add_0_r.
Qed.

(** X9. On a well-shaped answer, a choice-based exercise is graded
    correct exactly when every position it has (the whole answer, each
    blank, each user turn) holds the key of that position; so one
    position whose selection is not its key makes the exercise
    incorrect. *)
Theorem graded_correct_iff_every_position_keyed (ex : Exercise) (a : Answer) :
  choiceBased ex = true →
  wellShaped ex a = true →
  (gradedCorrect ex a = true
   ↔ ∀ pos, hasPosition ex pos = true →
            ∃ key, keyAt ex pos = Some key ∧ selectionAt a pos = Some key)
  ∧ (∀ pos, hasPosition ex pos = true →
            selectionAt a pos ≠ keyAt ex pos →
            gradedCorrect ex a = false).
Proof.
  intros Hchoice Hshape.
  pose proof (gradedCorrect_iff_keys ex a Hchoice Hshape) as Hiff.
  split; [done|]. intros pos Hpos Hne.
  destruct (gradedCorrect ex a) eqn:Hgraded; [|done]. exfalso.
  destruct (proj1 Hiff eq_refl pos Hpos) as (key & Hkey & Hsel). congruence.
Qed.

Lemma graded_correct_iff_every_position_keyed_witness :
  gradedCorrect sampleDouble (AArr [SStr "bin"; SStr "Mann"]) = false.
Proof.
  refine (proj2 (graded_correct_iff_every_position_keyed sampleDouble
                   (AArr [SStr "bin"; SStr "Mann"]) _ _) (blank B1) _ _);
    [reflexivity..|discriminate].
Defined.

(** X10. After checking, the annotations agree with the score: for a
    choice-based exercise whose answer is fully formed, the exercise is
    not counted correct exactly when one of its options is annotated
    incorrect. *)
Theorem not_correct_iff_an_option_is_incorrect
    (currentExercises : list Exercise) (userAnswers : list Answer)
    (i : nat) (ex : Exercise) (a : Answer) :
  currentExercises !! i = Some ex →
  userAnswers !! i = Some a →
  choiceBased ex = true →
  wellShaped ex a = true →
  fullyFormed ex a = true →
  gradedCorrect ex a = false
  ↔ ∃ pos option,
      hasPosition ex pos = true
      ∧ checkedOptionClassName currentExercises userAnswers option i pos
        = Returns "incorrect".
Proof.
  intros Hex Ha Hchoice Hshape Hformed.
  assert (∀ pos option, hasPosition ex pos = true →
            (checkedOptionClassName currentExercises userAnswers option i pos
             = Returns "incorrect"
             ↔ keyAt ex pos ≠ Some option ∧ selectionAt a pos = Some option)) as Hclass.
  { intros pos option Hpos.
    rewrite (checkedOptionClassName_annotation _ _ _ _ _ _ _ Hex Ha Hshape Hpos).
    rewrite <- annotation_incorrect. split; congruence. }
  split.
  - intros Hgraded.
    assert (∃ pos option, hasPosition ex pos = true
              ∧ keyAt ex pos ≠ Some option ∧ selectionAt a pos = Some option)
      as (pos & option & Hpos & Hwrong).
    { destruct ex as [ex|ex|ex|ex|ex|ex], a as [| | |s|l]; try discriminate;
        cbn [gradedCorrect answerEqStr] in Hgraded.
      - exists whole, s. split; [done|]. split; [|done]. simpl.
        apply String.eqb_neq in Hgraded. congruence.
      - destruct l as [|[| |s0] [|[| |s1] [|]]]; try discriminate.
        cbn [slotAt slotEqStr lookup list_lookup default] in Hgraded.
        apply andb_false_iff in Hgraded as [H0|H1].
        + exists (blank B0), s0. split; [done|]. split; [|done]. simpl.
          apply String.eqb_neq in H0. congruence.
        + exists (blank B1), s1. split; [done|]. split; [|done]. simpl.
          apply String.eqb_neq in H1. congruence.
      - destruct l as [|[| |s0] [|[| |s1] [|[| |s2] [|]]]]; try discriminate.
        cbn [slotAt slotEqStr lookup list_lookup default] in Hgraded.
        apply andb_false_iff in Hgraded as [H01|H2];
          [apply andb_false_iff in H01 as [H0|H1]|].
        + exists (blank B0), s0. split; [done|]. split; [|done]. simpl.
          apply String.eqb_neq in H0. congruence.
        + exists (blank B1), s1. split; [done|]. split; [|done]. simpl.
          apply String.eqb_neq in H1. congruence.
        + exists (blank B2), s2. split; [done|]. split; [|done]. simpl.
          apply String.eqb_neq in H2. congruence.
      - apply andb_prop in Hshape as [Hlen Hopt]. apply Nat.eqb_eq in Hlen.
        cbn [fullyFormed] in Hformed. unfold userTurnsOf in *.
        apply everyFrom_false in Hgraded as (k & t & Ht & Hwrong).
        destruct (userTurns_lookup _ _ _ Ht) as [Hk Hkey]. cbn [Nat.add] in Hwrong.
        pose proof (lookup_lt_Some _ _ _ Ht) as Hlt. rewrite <- Hlen in Hlt.
        destruct (lookup_lt_is_Some_2 l k Hlt) as [v Hv].
        assert (placedWord v = true) as Hplaced.
        { rewrite forallb_forall in Hformed. apply Hformed.
          apply list_elem_of_In. by eapply list_elem_of_lookup_2. }
        destruct v as [| |s]; try discriminate.
        exists (turn k), s. split; [cbn [hasPosition]; by apply bool_decide_eq_true_2|].
        cbn [keyAt selectionAt]. rewrite Hv, Hkey. split; [|done].
        unfold slotAt in Hwrong. rewrite Hv in Hwrong. simpl in Hwrong.
        destruct (DialogueTurn.correctAnswer t) as [key|]; [|done].
        apply String.eqb_neq in Hwrong. congruence.
      - exists whole, s. split; [done|]. split; [|done]. simpl.
        apply String.eqb_neq in Hgraded. congruence. }
    exists pos, option. split; [done|]. by apply Hclass.
  - intros (pos & option & Hpos & Hincorrect). apply Hclass in Hincorrect as [Hkey Hsel]; [|done].
    destruct (gradedCorrect ex a) eqn:Hgraded; [|done]. exfalso.
    pose proof (proj1 (gradedCorrect_iff_keys ex a Hchoice Hshape) Hgraded) as Hkeys.
    destruct (Hkeys pos Hpos) as (key & Hkey' & Hsel'). congruence.
Qed.

Lemma not_correct_iff_an_option_is_incorrect_witness :
  gradedCorrect sampleDouble (AArr [SStr "bin"; SStr "Mann"]) = false
  ↔ ∃ pos option,
      hasPosition sampleDouble pos = true
      ∧ checkedOptionClassName sampleSet sampleAnswers option 1 pos = Returns "incorrect".
Proof.
  refine (not_correct_iff_an_option_is_incorrect sampleSet sampleAnswers 1 sampleDouble
            (AArr [SStr "bin"; SStr "Mann"]) _ _ _ _ _); reflexivity.
Defined.

(** ** The sentence scramble *)

(** X11. After checking, the build area of a scramble is marked correct
    exactly when the grader counts the exercise correct, and marked
    incorrect otherwise; before checking it carries no mark; and when
    the entry is not an array the call throws. *)
Theorem scramble_mark_agrees_with_score (currentExercises : list Exercise)
    (userAnswers : list Answer) (i : nat) (ex : SentenceScrambleExercise.t) :
  currentExercises !! i = Some (sentence_scramble ex) →
  (∀ built, userAnswers !! i = Some (AArr built) →
     getScrambleClassName currentExercises true userAnswers i
     = Returns (if gradedCorrect (sentence_scramble ex) (AArr built)
                then "correct" else "incorrect"))
  ∧ getScrambleClassName currentExercises false userAnswers i = Returns ""
  ∧ ((∀ built, userAnswers !! i ≠ Some (AArr built)) →
     getScrambleClassName currentExercises true userAnswers i = Throws).
Proof.
  intros Hex. split; [|split; [done|]].
  - intros built Ha. unfold getScrambleClassName.
    rewrite (answerAt_dense _ _ _ Ha) by done. cbn [negb joinValue mbind outcome_bind].
    by rewrite Hex.
  - intros Hno. unfold getScrambleClassName, answerAt. cbn [negb].
    destruct (userAnswers !! i) as [[| | |s|l]|]; try done. by destruct (Hno l).
Qed.

Lemma scramble_mark_agrees_with_score_witness :
  getScrambleClassName sampleSet true sampleAnswers 3 = Returns "incorrect".
Proof.
  refine (proj1 (scramble_mark_agrees_with_score sampleSet sampleAnswers 3
            (SentenceScrambleExercise.mk "I am going home."
               "Ich gehe nach Hause" ["Ich"; "gehe"; "nach"; "Hause"]) _)
            [SStr "Ich"; SStr "nach"; SStr "gehe"; SStr "Hause"] _); reflexivity.
Defined.

Lemma wordsOf_words (words : list string) : wordsOf (SStr <$> words) = words.
Proof.
  induction words as [|w words IH]; [done|].
  rewrite fmap_cons. change (wordsOf (SStr w :: (SStr <$> words)))
    with (w :: wordsOf (SStr <$> words)). by rewrite IH.
Qed.

Lemma placed_words (words : list string) : forallb placedWord (SStr <$> words) = true.
Proof. induction words as [|w words IH]; [done|]. by rewrite fmap_cons. Qed.

Lemma join_words (words : list string) :
  join " " (SStr <$> words) = String.concat " " words.
Proof. by rewrite join_placed_words, wordsOf_words by apply placed_words. Qed.

(** Placing words one after the other appends them, in this order, to
    the built sentence. *)
Lemma placeWords_on_array (answers : list Answer) (i : nat) (built : list Slot)
    (words : list string) :
  dense answers →
  answers !! i = Some (AArr built) →
  placeWords answers i words = Returns (<[i := AArr (built ++ (SStr <$> words))]> answers).
Proof.
  revert answers built. induction words as [|w words IH]; intros answers built Hdense Hi.
  - simpl. by rewrite app_nil_r, list_insert_id.
  - pose proof (lookup_lt_Some _ _ _ Hi) as Hlt. cbn [placeWords].
    rewrite (handleWordMove_on_array _ _ built) by done. cbn [mbind outcome_bind].
    rewrite (IH _ (built ++ [SStr w]));
      [|by apply dense_insert|by apply list_lookup_insert_eq].
    rewrite list_insert_insert_eq, fmap_cons, <- (assoc_L (++)). done.
Qed.

(** X12. Placing words from the bank one after the other onto an empty
    built sentence gives the sentence of these words in this order and
    touches no other entry; the exercise is then graded correct exactly
    when the words joined by single spaces are the correct sentence,
    whatever the order of the scrambled bag. *)
Theorem words_placed_in_order_are_graded_by_their_join
    (userAnswers : list Answer) (i : nat) (ex : SentenceScrambleExercise.t)
    (words : list string) :
  dense userAnswers →
  userAnswers !! i = Some (AArr []) →
  ∃ placed,
    placeWords userAnswers i words = Returns placed
    ∧ placed !! i = Some (AArr (SStr <$> words))
    ∧ (∀ j, j ≠ i → placed !! j = userAnswers !! j)
    ∧ (gradedCorrect (sentence_scramble ex) (AArr (SStr <$> words)) = true
       ↔ String.concat " " words = SentenceScrambleExercise.correctSentence ex).
Proof.
  intros Hdense Hi. pose proof (lookup_lt_Some _ _ _ Hi) as Hlt.
  eexists. split; [by apply (placeWords_on_array _ _ [])|].
  cbn [app]. split; [by apply list_lookup_insert_eq|]. split.
  - intros j Hj. by apply list_lookup_insert_ne.
  - cbn [gradedCorrect]. by rewrite join_words, String.eqb_eq.
Qed.

Lemma words_placed_in_order_are_graded_by_their_join_witness :
  ∃ placed,
    placeWords (initializeAnswers sampleSet) 3 ["Ich"; "gehe"; "nach"; "Hause"]
    = Returns placed
    ∧ placed !! 3 = Some (AArr (SStr <$> ["Ich"; "gehe"; "nach"; "Hause"]))
    ∧ (∀ j, j ≠ 3 → placed !! j = initializeAnswers sampleSet !! j)
    ∧ (gradedCorrect
         (sentence_scramble (SentenceScrambleExercise.mk "I am going home."
            "Ich gehe nach Hause" ["Hause"; "nach"; "Ich"; "gehe"]))
         (AArr (SStr <$> ["Ich"; "gehe"; "nach"; "Hause"])) = true
       ↔ String.concat " " ["Ich"; "gehe"; "nach"; "Hause"] = "Ich gehe nach Hause").
Proof.
  refine (words_placed_in_order_are_graded_by_their_join (initializeAnswers sampleSet) 3
            (SentenceScrambleExercise.mk "I am going home."
               "Ich gehe nach Hause" ["Hause"; "nach"; "Ich"; "gehe"])
            ["Ich"; "gehe"; "nach"; "Hause"] _ _); [repeat constructor|reflexivity].
Defined.

(** ** The gate on the initial store *)

Lemma placed_replicate_null (n : nat) :
  forallb placedWord (replicate n SNull) = Nat.eqb n 0.
Proof. by destruct n. Qed.

Lemma initialAnswer_formed (ex : Exercise) :
  fullyFormed ex (initialAnswer ex) = negb (needsInput ex).
Proof.
  destruct ex as [ex|ex|ex|ex|ex|ex]; simpl; try done.
  - by destruct (SentenceScrambleExercise.scrambledWords ex).
  - by rewrite placed_replicate_null, negb_involutive.
Qed.

Lemma initial_allFullyFormed (exercises : list Exercise) :
  allFullyFormed exercises (initializeAnswers exercises)
  = negb (existsb needsInput exercises).
Proof.
  unfold allFullyFormed, initializeAnswers.
  induction exercises as [|ex exercises IH]; [done|].
  rewrite fmap_cons. cbn [zip zip_with forallb existsb fst snd].
  fold (zip exercises (initialAnswer <$> exercises)).
  rewrite IH, initialAnswer_formed. by destruct (needsInput ex).
Qed.

(** X13. On the store produced by [initializeAnswers] for a non-empty
    set, the check button is disabled exactly when some exercise still
    needs input: a set made only of scrambles with an empty bag and of
    dialogues without user turns can be checked at once. *)
Theorem initial_gate_closed_iff_input_needed (exercises : list Exercise) :
  exercises ≠ [] →
  isCheckButtonDisabled exercises (initializeAnswers exercises)
  = Returns (existsb needsInput exercises).
Proof.
  intros Hne. unfold isCheckButtonDisabled. rewrite nonempty_length_eqb by done.
  pose proof (gate_loop [] exercises _ (initializeAnswers_shaped exercises)) as Hloop.
  change (someFrom (incompleteEntry exercises) (initializeAnswers exercises) 0
          = Returns (negb (allFullyFormed exercises (initializeAnswers exercises))))
    in Hloop.
  by rewrite Hloop, initial_allFullyFormed, negb_involutive.
Qed.

Lemma initial_gate_closed_iff_input_needed_witness :
  isCheckButtonDisabled [agentOnlyDialogue; emptyScramble]
                        (initializeAnswers [agentOnlyDialogue; emptyScramble])
  = Returns (existsb needsInput [agentOnlyDialogue; emptyScramble]).
Proof.
  apply (initial_gate_closed_iff_input_needed [agentOnlyDialogue; emptyScramble]).
  discriminate.
Defined.

(** ** The word bank, continued *)

Lemma removeFirst_sublist (w : string) (available : list string) :
  removeFirst w available `sublist_of` available.
Proof.
  induction available as [|x available IH]; [done|]. simpl.
  destruct (String.eqb x w); [by apply sublist_cons|by apply sublist_skip].
Qed.

Lemma bankOf_sublist (scrambledWords : list string) (builtSentence : list Slot) :
  bankOf scrambledWords builtSentence `sublist_of` scrambledWords.
Proof.
  unfold bankOf. revert scrambledWords.
  induction builtSentence as [|v built IH]; intros bag; [done|]. simpl.
  etrans; [apply IH|]. destruct v; [done..|]. apply removeFirst_sublist.
Qed.

Lemma size_list_to_set_disj (l : list string) :
  size (list_to_set_disj l : gmultiset string) = length l.
Proof.
  induction l as [|x l IH]; [done|].
  rewrite list_to_set_disj_cons, gmultiset_size_disj_union, gmultiset_size_singleton.
  simpl. by rewrite IH.
Qed.

Lemma wordsOf_delete_subseteq (built : list Slot) (k : nat) :
  list_to_set_disj (wordsOf (delete k built))
  ⊆@{gmultiset string} list_to_set_disj (wordsOf built).
Proof.
  revert k. induction built as [|v built IH]; intros [|k]; try done.
  - destruct v as [| |s]; try done.
    change (wordsOf (SStr s :: built)) with (s :: wordsOf built).
    rewrite list_to_set_disj_cons. simpl. multiset_solver.
  - destruct v as [| |s]; try apply IH.
    change (wordsOf (delete (S k) (SStr s :: built)))
      with (s :: wordsOf (delete k built)).
    change (wordsOf (SStr s :: built)) with (s :: wordsOf built).
    rewrite !list_to_set_disj_cons. specialize (IH k). multiset_solver.
Qed.

(** X14. The word bank lists words of the scrambled bag in the order of
    the bag.  While the words of the built sentence are among those of
    the bag, counted with their repetitions, as many words are in the
    bank as are missing from the sentence, so that the bank is empty
    exactly when the sentence has the length of the bag; and placing a
    word of the bank, or removing a word, keeps the built words among
    those of the bag. *)
Theorem bank_holds_what_is_missing (scrambledWords : list string) (built : list Slot) :
  list_to_set_disj (wordsOf built) ⊆@{gmultiset string} list_to_set_disj scrambledWords →
  bankOf scrambledWords built `sublist_of` scrambledWords
  ∧ length (bankOf scrambledWords built) + length (wordsOf built) = length scrambledWords
  ∧ (bankOf scrambledWords built = [] ↔ length (wordsOf built) = length scrambledWords)
  ∧ (∀ word, word ∈ bankOf scrambledWords built →
       list_to_set_disj (wordsOf (built ++ [SStr word]))
       ⊆@{gmultiset string} list_to_set_disj scrambledWords)
  ∧ (∀ k, list_to_set_disj (wordsOf (delete k built))
          ⊆@{gmultiset string} list_to_set_disj scrambledWords).
Proof.
  intros Hsub.
  assert (length (bankOf scrambledWords built) + length (wordsOf built)
          = length scrambledWords) as Hcount.
  { pose proof (bankOf_multiset scrambledWords built) as Hbank.
    apply (f_equal size) in Hbank.
    rewrite gmultiset_size_difference in Hbank by done.
    rewrite !size_list_to_set_disj in Hbank.
    apply gmultiset_subseteq_size in Hsub. rewrite !size_list_to_set_disj in Hsub. lia. }
  split; [apply bankOf_sublist|]. split; [done|]. split; [|split].
  - split.
    + intros Hempty. rewrite Hempty in Hcount. simpl in Hcount. lia.
    + intros Hfull. apply length_zero_iff_nil. lia.
  - intros word Hword.
    assert (word ∈ (list_to_set_disj (bankOf scrambledWords built) : gmultiset string))
      as Hin by by apply elem_of_list_to_set_disj.
    rewrite bankOf_multiset in Hin.
    unfold wordsOf. rewrite omap_app. cbn [omap]. rewrite list_to_set_disj_app.
    fold (wordsOf built). multiset_solver.
  - intros k. etrans; [apply wordsOf_delete_subseteq|exact Hsub].
Qed.

Lemma bank_holds_what_is_missing_witness :
  bankOf ["Ich"; "gehe"; "nach"; "Hause"] [SStr "nach"; SStr "Ich"] = []
  ↔ length (wordsOf [SStr "nach"; SStr "Ich"]) = length ["Ich"; "gehe"; "nach"; "Hause"].
Proof.
  refine (proj1 (proj2 (proj2 (bank_holds_what_is_missing
            ["Ich"; "gehe"; "nach"; "Hause"] [SStr "nach"; SStr "Ich"] _)))).
  apply (bool_decide_unpack _). vm_compute. exact I.
Defined.

(** ** Option annotations before checking *)

(** Before checking, the class name of an option tells whether it is the
    selection at its position. *)
Lemma uncheckedOptionClassName_selected
    (currentExercises : list Exercise) (userAnswers : list Answer)
    (option : string) (exerciseIndex : nat) (pos : Position)
    (ex : Exercise) (a : Answer) :
  userAnswers !! exerciseIndex = Some a →
  wellShaped ex a = true →
  hasPosition ex pos = true →
  uncheckedOptionClassName currentExercises userAnswers option exerciseIndex pos
  = Returns (if bool_decide (selectionAt a pos = Some option) then "selected" else "").
Proof.
  intros Ha Hshape Hpos.
  pose proof (answerAt_dense _ _ _ Ha (wellShaped_not_hole _ _ Hshape)) as Hat.
  destruct ex as [ex|ex|ex|ex|ex|ex], pos as [|b|k]; try discriminate;
    unfold uncheckedOptionClassName.
  - unfold getOptionClassName. rewrite Hat. cbn [negb].
    rewrite answerEqStr_selection. by destruct a.
  - destruct a as [| | |s|l]; try discriminate.
    unfold getOptionClassName. rewrite Hat. cbn [negb selectionAt].
    by rewrite slotEqStr_selection.
  - destruct a as [| | |s|l]; try discriminate.
    unfold getOptionClassName. rewrite Hat. cbn [negb selectionAt].
    by rewrite slotEqStr_selection.
  - destruct a as [| | |s|l]; try discriminate.
    unfold getDialogueOptionClassName, valueAt. rewrite Hat.
    cbn [spreadValue mbind outcome_bind mret outcome_ret negb selectionAt].
    by rewrite slotEqStr_selection.
  - unfold getOptionClassName. rewrite Hat. cbn [negb].
    rewrite answerEqStr_selection. by destruct a.
Qed.

(** X15. Before checking, every option of every choice-based exercise
    is marked selected exactly when it is the selection at its position,
    and carries no mark otherwise; the exercise set is not consulted. *)
Theorem unchecked_option_selected_iff_chosen
    (currentExercises otherExercises : list Exercise) (userAnswers : list Answer)
    (option : string) (exerciseIndex : nat) (pos : Position)
    (ex : Exercise) (a : Answer) :
  userAnswers !! exerciseIndex = Some a →
  wellShaped ex a = true →
  hasPosition ex pos = true →
  uncheckedOptionClassName currentExercises userAnswers option exerciseIndex pos
  = Returns (if bool_decide (selectionAt a pos = Some option) then "selected" else "")
  ∧ uncheckedOptionClassName otherExercises userAnswers option exerciseIndex pos
    = uncheckedOptionClassName currentExercises userAnswers option exerciseIndex pos.
Proof.
  intros Ha Hshape Hpos. split.
  - by eapply uncheckedOptionClassName_selected.
  - by rewrite !(uncheckedOptionClassName_selected _ _ _ _ _ ex a).
Qed.

Lemma unchecked_option_selected_iff_chosen_witness :
  uncheckedOptionClassName sampleSet sampleAnswers "Mann" 1 (blank B1) = Returns "selected".
Proof.
  refine (proj1 (unchecked_option_selected_iff_chosen sampleSet [] sampleAnswers "Mann" 1
                   (blank B1) sampleDouble (AArr [SStr "bin"; SStr "Mann"]) _ _ _));
    reflexivity.
Defined.

Lemma selectionAt_inserted (l : list Slot) (i : nat) (option : string) :
  i < length l →
  match <[i := SStr option]> l !! i with Some (SStr s) => Some s | _ => None end
  = Some option.
Proof. intros Hi. by rewrite list_lookup_insert_eq. Qed.

Lemma handleDialogueAnswer_on_shaped (currentExercises : list Exercise)
    (userAnswers : list Answer) (i : nat) (ex : DialogueSimulationExercise.t)
    (tuple : list Slot) (k : nat) (choice : string) :
  storeShaped currentExercises userAnswers →
  currentExercises !! i = Some (dialogue_simulation ex) →
  userAnswers !! i = Some (AArr tuple) →
  k < length (userTurnsOf ex) →
  handleDialogueAnswer false userAnswers i k choice
  = Returns (<[i := AArr (<[k := SStr choice]> tuple)]> userAnswers)
  ∧ wellShaped (dialogue_simulation ex) (AArr (<[k := SStr choice]> tuple)) = true.
Proof.
  intros Hshaped Hex Ha Hk.
  destruct (shaped_lookup _ _ Hshaped i _ Hex) as (a' & Ha' & Hshape).
  assert (a' = AArr tuple) as -> by congruence.
  apply andb_prop in Hshape as [Hlen Hopt]. apply Nat.eqb_eq in Hlen.
  pose proof (lookup_lt_Some _ _ _ Ha) as Hlt. split.
  - unfold handleDialogueAnswer.
    rewrite spreadAnswers_dense, (answerAt_dense _ _ _ Ha)
      by (done || by eapply storeShaped_dense).
    cbn [spreadValue mbind outcome_bind mret outcome_ret].
    rewrite arraySet_in_range by done. by rewrite (arraySet_in_range SUndefined) by lia.
  - simpl. by rewrite length_insert, Hlen, Nat.eqb_refl, forallb_insert.
Qed.

(** X16. A choice can be read back: after an option is chosen at a
    position with [handleAnswerSelect], or for a user turn with
    [handleDialogueAnswer], on a store of matching shape that is not
    checked, the option buttons of that position show this option, and
    no other, as selected. *)
Theorem chosen_option_is_the_one_selected
    (currentExercises : list Exercise) (userAnswers : list Answer)
    (i : nat) (ex : Exercise) (pos : Position) (chosenOption : string) :
  storeShaped currentExercises userAnswers →
  currentExercises !! i = Some ex →
  hasPosition ex pos = true →
  ∃ chosen,
    match pos with
    | turn k => handleDialogueAnswer false userAnswers i k chosenOption
    | _ => handleAnswerSelect currentExercises false userAnswers i chosenOption
                              (blankIndexOf pos)
    end = Returns chosen
    ∧ ∀ option,
        uncheckedOptionClassName currentExercises chosen option i pos
        = Returns (if bool_decide (option = chosenOption) then "selected" else "").
Proof.
  intros Hshaped Hex Hpos.
  destruct (shaped_lookup _ _ Hshaped i ex Hex) as (a & Ha & Hshape).
  pose proof (lookup_lt_Some _ _ _ Ha) as Hlt.
  assert (∀ (a' : Answer) option,
            wellShaped ex a' = true →
            selectionAt a' pos = Some chosenOption →
            uncheckedOptionClassName currentExercises (<[i := a']> userAnswers) option i pos
            = Returns (if bool_decide (option = chosenOption) then "selected" else ""))
    as Hread.
  { intros a' option Hshape' Hsel.
    rewrite (uncheckedOptionClassName_selected _ _ _ _ _ ex a');
      [|by apply list_lookup_insert_eq|done..].
    rewrite Hsel. f_equal. by repeat case_bool_decide; simplify_eq. }
  destruct ex as [ex|ex|ex|ex|ex|ex], pos as [|b|k]; try discriminate;
    cbn [blankIndexOf].
  - rewrite (handleAnswerSelect_on_shaped _ _ _ _ a _ None Hshaped Hex Ha) by done.
    eexists. split; [done|]. intros option. by apply Hread.
  - destruct a as [| | |s|l]; try discriminate.
    rewrite (handleAnswerSelect_on_shaped _ _ _ _ _ _ (Some b) Hshaped Hex Ha) by done.
    eexists. split; [done|]. intros option.
    apply andb_prop in Hshape as [Hlen Hopt]. apply Nat.eqb_eq in Hlen.
    apply Hread.
    + simpl. by rewrite length_insert, Hlen, forallb_insert.
    + cbn [selectionAt]. apply selectionAt_inserted. destruct b; try discriminate; simpl; lia.
  - destruct a as [| | |s|l]; try discriminate.
    rewrite (handleAnswerSelect_on_shaped _ _ _ _ _ _ (Some b) Hshaped Hex Ha) by done.
    eexists. split; [done|]. intros option.
    apply andb_prop in Hshape as [Hlen Hopt]. apply Nat.eqb_eq in Hlen.
    apply Hread.
    + simpl. by rewrite length_insert, Hlen, forallb_insert.
    + cbn [selectionAt]. apply selectionAt_inserted. destruct b; simpl; lia.
  - destruct a as [| | |s|l]; try discriminate.
    cbn [hasPosition] in Hpos. apply bool_decide_eq_true_1 in Hpos.
    rewrite userTurnCount_filter in Hpos. fold (userTurnsOf ex) in Hpos.
    destruct (handleDialogueAnswer_on_shaped _ _ _ _ _ k chosenOption Hshaped Hex Ha Hpos)
      as [Hcall Hshape'].
    rewrite Hcall. eexists. split; [done|]. intros option.
    apply andb_prop in Hshape as [Hlen Hopt]. apply Nat.eqb_eq in Hlen.
    apply Hread; [done|]. cbn [selectionAt]. apply selectionAt_inserted. lia.
  - rewrite (handleAnswerSelect_on_shaped _ _ _ _ a _ None Hshaped Hex Ha) by done.
    eexists. split; [done|]. intros option. by apply Hread.
Qed.

Lemma chosen_option_is_the_one_selected_witness :
  ∃ chosen,
    handleAnswerSelect sampleSet false sampleAnswers 1 "Frau" (Some B1) = Returns chosen
    ∧ ∀ option,
        uncheckedOptionClassName sampleSet chosen option 1 (blank B1)
        = Returns (if bool_decide (option = "Frau") then "selected" else "").
Proof.
  refine (chosen_option_is_the_one_selected sampleSet sampleAnswers 1 sampleDouble
            (blank B1) "Frau" _ _ _); [repeat constructor|reflexivity..].
Defined.

(** ** Rendering a practice view *)

(** X17. On a store of matching shape, what the practice views compute
    for an exercise does not throw, checked or not: the class name of
    every option at every position of a choice-based exercise, and for a
    scramble the mark of the build area and the word bank. *)
Theorem practice_view_renders_without_throwing
    (currentExercises : list Exercise) (userAnswers : list Answer)
    (checked : bool) (i : nat) (ex : Exercise) :
  storeShaped currentExercises userAnswers →
  currentExercises !! i = Some ex →
  (∀ pos option,
     hasPosition ex pos = true →
     ∃ className,
       (if checked
        then checkedOptionClassName currentExercises userAnswers option i pos
        else uncheckedOptionClassName currentExercises userAnswers option i pos)
       = Returns className)
  ∧ (∀ scramble,
       ex = sentence_scramble scramble →
       (∃ className,
          getScrambleClassName currentExercises checked userAnswers i = Returns className)
       ∧ ∃ available, bankWords scramble userAnswers i = Returns available).
Proof.
  intros Hshaped Hex.
  destruct (shaped_lookup _ _ Hshaped i ex Hex) as (a & Ha & Hshape). split.
  - intros pos option Hpos. destruct checked.
    + rewrite (checkedOptionClassName_annotation _ _ _ _ _ ex a) by done. eauto.
    + rewrite (uncheckedOptionClassName_selected _ _ _ _ _ ex a) by done. eauto.
  - intros scramble ->. destruct a as [| | |s|built]; try discriminate.
    unfold getScrambleClassName, bankWords.
    rewrite (answerAt_dense _ _ _ Ha) by done. rewrite Hex. split.
    + destruct checked; simpl; eauto.
    + simpl. eauto.
Qed.

Lemma practice_view_renders_without_throwing_witness :
  ∃ className,
    getScrambleClassName sampleSet true sampleAnswers 3 = Returns className.
Proof.
  refine (proj1 (proj2 (practice_view_renders_without_throwing sampleSet sampleAnswers
            true 3 sampleScramble _ _) _ eq_refl)); [repeat constructor|reflexivity].
Defined.

(** ** Correct answers are complete *)

Lemma forallb_lookup {A : Type} (p : A → bool) (l : list A) :
  (∀ k x, l !! k = Some x → p x = true) → forallb p l = true.
Proof.
  intros Hall. apply forallb_forall. intros x Hx.
  apply list_elem_of_In, list_elem_of_lookup in Hx as [k Hk]. by eapply Hall.
Qed.

Lemma gradedCorrect_formed (ex : Exercise) (a : Answer) :
  choiceBased ex = true →
  wellShaped ex a = true →
  gradedCorrect ex a = true →
  fullyFormed ex a = true.
Proof.
  intros Hchoice Hshape Hgraded.
  destruct ex as [ex|ex|ex|ex|ex|ex], a as [| | |s|l]; try discriminate; try done.
  - apply andb_prop in Hshape as [Hlen _]. apply Nat.eqb_eq in Hlen.
    cbn [gradedCorrect] in Hgraded. apply andb_prop in Hgraded as [H0 H1].
    apply slotEqStr_true in H0, H1.
    destruct l as [|v0 [|v1 [|]]]; try discriminate. simpl in H0, H1. by simplify_eq.
  - apply andb_prop in Hshape as [Hlen _]. apply Nat.eqb_eq in Hlen.
    cbn [gradedCorrect] in Hgraded. apply andb_prop in Hgraded as [H01 H2].
    apply andb_prop in H01 as [H0 H1]. apply slotEqStr_true in H0, H1, H2.
    destruct l as [|v0 [|v1 [|v2 [|]]]]; try discriminate. simpl in H0, H1, H2.
    by simplify_eq.
  - apply andb_prop in Hshape as [Hlen Hopt]. apply Nat.eqb_eq in Hlen.
    cbn [gradedCorrect] in Hgraded. rewrite everyFrom_forall in Hgraded.
    cbn [fullyFormed]. apply forallb_lookup. intros k v Hv.
    pose proof (lookup_lt_Some _ _ _ Hv) as Hk. rewrite Hlen in Hk.
    destruct (lookup_lt_is_Some_2 (userTurnsOf ex) k Hk) as [t Ht].
    specialize (Hgraded k t Ht). cbn [Nat.add] in Hgraded.
    apply slotEqOpt_true in Hgraded as (s & _ & Hs); [|done|lia].
    assert (v = SStr s) as -> by congruence. done.
Qed.

Lemma incompleteEntry_at (exercises : list Exercise) (i : nat) (ex : Exercise) (a : Answer) :
  exercises !! i = Some ex →
  wellShaped ex a = true →
  incompleteEntry exercises a i = Returns (negb (fullyFormed ex a)).
Proof.
  intros Hex Hshape. unfold incompleteEntry. rewrite Hex.
  destruct ex, a; try discriminate; simpl; try done.
  all: apply andb_prop in Hshape as [_ Hopt]; by rewrite includesNull_placed.
Qed.

Lemma countCorrect_le (exercises : list Exercise) (answers : list Answer) :
  countCorrect exercises answers ≤ length exercises.
Proof.
  unfold countCorrect. etrans; [apply List.filter_length_le|].
  rewrite length_zip. lia.
Qed.

(** X18. A correct answer is a complete one: on a well-shaped answer, a
    choice-based exercise that is graded correct passes the test of the
    gate; hence a non-empty set of choice-based exercises whose store
    would score one point per exercise has its check button enabled. *)
Theorem full_score_store_is_checkable
    (currentExercises : list Exercise) (userAnswers : list Answer) :
  currentExercises ≠ [] →
  storeShaped currentExercises userAnswers →
  Forall (λ ex, choiceBased ex = true) currentExercises →
  (∀ i ex a, currentExercises !! i = Some ex → userAnswers !! i = Some a →
     gradedCorrect ex a = true →
     incompleteEntry currentExercises a i = Returns false)
  ∧ (checkAnswers currentExercises userAnswers = Returns (length currentExercises) →
     gateOpen currentExercises userAnswers).
Proof.
  intros Hne Hshaped Hchoice. split.
  - intros i ex a Hex Ha Hgraded.
    destruct (shaped_lookup _ _ Hshaped i ex Hex) as (a' & Ha' & Hshape).
    assert (a' = a) as -> by congruence.
    assert (choiceBased ex = true) as Hc by by eapply Forall_lookup_1 in Hchoice.
    pose proof (gradedCorrect_formed _ _ Hc Hshape Hgraded) as Hformed.
    by rewrite (incompleteEntry_at _ _ ex), Hformed.
  - pose proof (checkAnswers_loop [] _ _ 0 Hshaped) as Hscore.
    change (checkAnswers currentExercises userAnswers
            = Returns (0 + countCorrect currentExercises userAnswers)) in Hscore.
    rewrite Hscore. intros [= Hfull]. unfold gateOpen, isCheckButtonDisabled.
    rewrite nonempty_length_eqb by done.
    pose proof (gate_loop [] _ _ Hshaped) as Hloop.
    change (someFrom (incompleteEntry currentExercises) userAnswers 0
            = Returns (negb (allFullyFormed currentExercises userAnswers))) in Hloop.
    rewrite Hloop. f_equal. apply negb_false_iff.
    clear Hscore Hloop Hne. revert Hfull.
    induction Hshaped as [|ex a exs answers Hex Hrest IH]; [done|].
    rewrite countCorrect_cons. cbn [length]. intros Hfull.
    apply Forall_cons in Hchoice as [Hc Hchoice].
    pose proof (countCorrect_le exs answers) as Hle.
    destruct (fullyCorrect ex a) eqn:Hcorrect; [|lia].
    unfold allFullyFormed. cbn [zip zip_with forallb fst snd].
    rewrite gradedCorrect_formed; [|done..|by rewrite gradedCorrect_fullyCorrect].
    apply IH; [done|lia].
Qed.

Lemma full_score_store_is_checkable_witness :
  gateOpen [sampleSingle; sampleImage] [AStr "bin"; AStr "der Apfel"].
Proof.
  refine (proj2 (full_score_store_is_checkable [sampleSingle; sampleImage]
                   [AStr "bin"; AStr "der Apfel"] _ _ _) _);
    [discriminate|repeat constructor..|reflexivity].
Defined.

(** ** Invariants of the navigation *)

(** A property kept by every reaction holds after every run. *)
Lemma run_invariant (P : World → Prop) (events : list Event) (w w' : World) :
  (∀ w e w', P w → step w e = Some w' → P w') →
  P w → run w events = Some w' → P w'.
Proof.
  intros Hstep. revert w. induction events as [|e events IH]; intros w Hw Hrun.
  - by injection Hrun as <-.
  - cbn [run] in Hrun. destruct (step w e) as [w1|] eqn:He; [|done].
    apply (IH w1); [by eapply Hstep|done].
Qed.

Lemma find_existsb {A : Type} (p : A → bool) (l : list A) :
  existsb p l = true → is_Some (List.find p l).
Proof.
  induction l as [|x l IH]; [done|]. simpl. destruct (p x); [by eexists|done].
Qed.

Lemma step_consistent (data : AppData.t) (w w' : World) (e : Event) :
  navigationConsistent data w → step w e = Some w' → navigationConsistent data w'.
Proof.
  unfold navigationConsistent, step. intros (Hdata & Hloading & Hview).
  destruct (offered w e) eqn:Hoffered; [|done]. cbn [negb].
  destruct e as [levelId|lessonId| | |n lessonData|n].
  - intros [= <-]. cbn [app handleSelectLevel appData loading view selectedLessonId].
    unfold offered in Hoffered. rewrite Hdata, Hloading in Hoffered. cbn [negb andb] in Hoffered.
    destruct (view (app w)); try done. destruct Hview as [_ Hlesson].
    split; [done|]. split; [done|]. split; [|done].
    unfold selectedLevel, handleSelectLevel. cbn [appData selectedLevelId].
    rewrite Hdata. simpl. by apply find_existsb.
  - destruct (handleSelectLesson (app w) lessonId) as [st issued] eqn:Hselect.
    intros [= <-]. cbn [app].
    unfold offered in Hoffered. rewrite Hdata, Hloading in Hoffered. cbn [negb andb] in Hoffered.
    destruct (view (app w)); try done.
    destruct (selectedLevel (app w)) as [level|] eqn:Hlevel; [|done].
    assert (appData st = appData (app w) ∧ loading st = loading (app w)
            ∧ view st = view_lesson ∧ selectedLevelId st = selectedLevelId (app w)
            ∧ selectedLessonId st = Some lessonId) as (Ha & Hl & Hv & Hlv & Hls).
    { revert Hselect. unfold handleSelectLesson.
      destruct (lessonPresent (app w) lessonId); [by intros [= <- _]|].
      destruct (lessonInfoOf (app w) lessonId ≫= Lesson.file) as [file|];
        [|by intros [= <- _]].
      destruct (String.eqb file ""); by intros [= <- _]. }
    rewrite Ha, Hl, Hv. split; [done|]. split; [done|].
    exists level, lessonId. split; [|done].
    unfold selectedLevel in *. by rewrite Ha, Hlv.
  - intros [= <-]. cbn [app handleGoToLevels appData loading view
                          selectedLevelId selectedLessonId]. done.
  - intros [= <-]. cbn [app handleGoToLessons appData loading view selectedLessonId].
    unfold offered in Hoffered. destruct (view (app w)); try done.
    destruct Hview as (level & lessonId & Hlevel & _).
    split; [done|]. split; [done|]. split; [|done].
    unfold selectedLevel, handleGoToLessons in *. cbn [appData selectedLevelId].
    by rewrite Hlevel.
  - destruct (pending w !! n) as [r|]; [|done]. intros [= <-]. cbn [app]. done.
  - intros [= <-]. cbn [app]. done.
Qed.

(** X19. In every state reached from the start by selections,
    breadcrumb clicks and fetch completions, the navigation names
    entries of the catalog: nothing is selected in view ['levels'], a
    level of the catalog and no lesson in view ['lessons'], and in view
    ['lesson'] a level of the catalog and one of its lessons. *)
Theorem navigation_stays_consistent (data : AppData.t) (events : list Event) (w : World) :
  run (started data) events = Some w → navigationConsistent data w.
Proof.
  apply run_invariant.
  - intros w1 e w2. apply step_consistent.
  - done.
Qed.

Lemma navigation_stays_consistent_witness :
  ∃ w, run (started sampleCatalog) openLesson1Twice = Some w
       ∧ navigationConsistent sampleCatalog w.
Proof.
  eexists. split; [vm_compute; reflexivity|].
  apply (navigation_stays_consistent sampleCatalog openLesson1Twice).
  vm_compute. reflexivity.
Defined.

Lemma handleSelectLesson_flag (st : State) (lessonId : string) :
  match (handleSelectLesson st lessonId).2 with
  | Some _ => loadingLesson (handleSelectLesson st lessonId).1 = true
  | None => loadingLesson (handleSelectLesson st lessonId).1 = loadingLesson st
  end.
Proof.
  unfold handleSelectLesson. destruct (lessonPresent st lessonId) eqn:Hpresent; [done|].
  destruct (lessonInfoOf st lessonId ≫= Lesson.file) as [file|]; [|done].
  by destruct (String.eqb file "").
Qed.

(** X20. In every state reached from the start, the loading indicator
    of a lesson is on only while a content fetch is in flight: a fetch
    that fails, like one that succeeds, turns it off. *)
Theorem loading_flag_needs_a_fetch_in_flight
    (data : AppData.t) (events : list Event) (w : World) :
  run (started data) events = Some w →
  loadingLesson (app w) = true → pending w ≠ [].
Proof.
  apply (run_invariant (λ w, loadingLesson (app w) = true → pending w ≠ [])); [|done].
  intros w1 e w2 Hinv. unfold step. destruct (offered w1 e); [|done]. cbn [negb].
  destruct e as [levelId|lessonId| | |n lessonData|n].
  - by intros [= <-].
  - pose proof (handleSelectLesson_flag (app w1) lessonId) as Hflag.
    destruct (handleSelectLesson (app w1) lessonId) as [st issued].
    intros [= <-]. cbn [app pending fst snd] in *. destruct issued as [r|]; simpl.
    + intros _. by destruct (pending w1).
    + rewrite Hflag, app_nil_r. apply Hinv.
  - by intros [= <-].
  - by intros [= <-].
  - destruct (pending w1 !! n); [|done]. by intros [= <-].
  - by intros [= <-].
Qed.

Lemma loading_flag_needs_a_fetch_in_flight_witness :
  ∃ w, run (started sampleCatalog) openLesson1Twice = Some w
       ∧ (loadingLesson (app w) = true → pending w ≠ []).
Proof.
  eexists. split; [vm_compute; reflexivity|].
  apply (loading_flag_needs_a_fetch_in_flight sampleCatalog openLesson1Twice).
  vm_compute. reflexivity.
Defined.

Lemma catalogFile_appData (st st' : State) (lessonId : string) :
  appData st' = appData st → catalogFile st' lessonId = catalogFile st lessonId.
Proof. unfold catalogFile, lessonInfoOf. by intros ->. Qed.

Lemma handleSelectLesson_appData (st : State) (lessonId : string) :
  appData (handleSelectLesson st lessonId).1 = appData st.
Proof.
  unfold handleSelectLesson. destruct (lessonPresent st lessonId) eqn:Hpresent; [done|].
  destruct (lessonInfoOf st lessonId ≫= Lesson.file) as [file|]; [|done].
  by destruct (String.eqb file "").
Qed.

(** The fetch that [handleSelectLesson] issues asks for the file the
    catalog names for the lesson. *)
Lemma handleSelectLesson_file (st : State) (lessonId : string) (r : FetchRequest) :
  (handleSelectLesson st lessonId).2 = Some r →
  catalogFile st (fetchLessonId r) = Some (fetchFile r) ∧ fetchFile r ≠ "".
Proof.
  unfold handleSelectLesson, catalogFile. destruct (lessonPresent st lessonId); [done|].
  destruct (lessonInfoOf st lessonId ≫= Lesson.file) as [file|] eqn:Hfile; [|done].
  destruct (String.eqb_spec file ""); [done|]. by intros [= <-].
Qed.

Lemma step_follows_catalog (w w' : World) (e : Event) :
  fetchesFollowCatalog w → step w e = Some w' → fetchesFollowCatalog w'.
Proof.
  unfold fetchesFollowCatalog, step. intros [Hpending Hcache].
  destruct (offered w e); [|done]. cbn [negb].
  destruct e as [levelId|lessonId| | |n lessonData|n].
  - by intros [= <-].
  - pose proof (handleSelectLesson_cache (app w) lessonId) as Hsame.
    pose proof (handleSelectLesson_appData (app w) lessonId) as Hdata.
    pose proof (handleSelectLesson_file (app w) lessonId) as Hfile.
    destruct (handleSelectLesson (app w) lessonId) as [st issued].
    intros [= <-]. cbn [app pending fst snd] in *. split.
    + apply Forall_app. split.
      * eapply Forall_impl; [exact Hpending|]. intros r Hr. simpl in Hr.
        by rewrite (catalogFile_appData (app w) st).
      * destruct issued as [r|]; [|constructor]. repeat constructor.
        rewrite (catalogFile_appData (app w) st) by done. by apply Hfile.
    + intros id Hid. rewrite (catalogFile_appData (app w) st) by done.
      apply Hcache. by rewrite <- Hsame.
  - by intros [= <-].
  - by intros [= <-].
  - destruct (pending w !! n) as [r|] eqn:Hr; [|done]. intros [= <-].
    cbn [app pending]. split.
    + apply Forall_delete. eapply Forall_impl; [exact Hpending|]. by intros r' Hr'.
    + intros id. cbn [fetchResolved loadedLessons].
      destruct (decide (fetchLessonId r = id)) as [<-|Hne].
      * intros _. eapply Forall_lookup_1 in Hpending; [|done]. simpl in Hpending.
        rewrite (catalogFile_appData (app w)) by done. by rewrite Hpending.
      * rewrite lookup_insert_ne by done. apply Hcache.
  - intros [= <-]. cbn [app pending]. split; [|done].
    apply Forall_delete. eapply Forall_impl; [exact Hpending|]. by intros r' Hr'.
Qed.

(** X21. In every state reached from the start, each content fetch in
    flight asks for the file that the catalog names for its lesson, and
    the cache holds lessons only for ids the catalog names a file for. *)
Theorem fetches_and_cache_follow_the_catalog
    (data : AppData.t) (events : list Event) (w : World) :
  run (started data) events = Some w → fetchesFollowCatalog w.
Proof.
  apply run_invariant.
  - intros w1 e w2. apply step_follows_catalog.
  - split; [constructor|]. intros id. cbn. rewrite lookup_empty. by intros [? ?].
Qed.

Lemma fetches_and_cache_follow_the_catalog_witness :
  ∃ w, run (started sampleCatalog) (openLesson1Twice ++ [FetchResolved 0 lessonDataA])
       = Some w
       ∧ fetchesFollowCatalog w.
Proof.
  eexists. split; [vm_compute; reflexivity|].
  apply (fetches_and_cache_follow_the_catalog sampleCatalog
           (openLesson1Twice ++ [FetchResolved 0 lessonDataA])).
  vm_compute. reflexivity.
Defined.

(** ** Resetting the quiz *)

Lemma practiceMenu_content (st : State) (content : LessonContent.t) :
  practiceMenu st = Some content → selectedLesson st ≫= Lesson.content = Some content.
Proof.
  unfold practiceMenu. destruct (loading st); [done|].
  destruct (appData st); [|done]. destruct (view st); try done.
  destruct (lessonView st); try done. by destruct (loadingLesson st).
Qed.

Lemma getCurrentExercises_after_reset (st : State) (exercises : option (list Exercise))
    (lv : LessonView) :
  getCurrentExercises (setLessonView (resetQuiz st exercises) lv)
  = getCurrentExercises (setLessonView st lv).
Proof. done. Qed.

(** X22. Every reset leaves the store that fits the exercises current
    after it: after Try Again, and after a click on the card of an
    exercise block or of practice 2, 3 or 4 in the practice menu, the
    answers are those [initializeAnswers] gives for the exercises of the
    new view, the set is not checked, the score is 0 and no translation
    or hint is shown. *)
Theorem every_reset_fits_the_current_set (st st' : State) :
  (st' = resetQuiz st None
   ∨ (∃ index, openBlock st index = Some st')
   ∨ openPractice2 st = Some st'
   ∨ openPractice3 st = Some st'
   ∨ openPractice4 st = Some st') →
  userAnswers st' = initializeAnswers (getCurrentExercises st')
  ∧ storeShaped (getCurrentExercises st') (userAnswers st')
  ∧ checked st' = false
  ∧ score st' = 0
  ∧ (∀ i, translationVisible st' i = false ∧ hintVisible st' i = false).
Proof.
  intros Hreset.
  assert (userAnswers st' = initializeAnswers (getCurrentExercises st')
          ∧ checked st' = false ∧ score st' = 0
          ∧ visibleTranslations st' = ∅ ∧ visibleHints st' = ∅)
    as (Hanswers & Hchecked & Hscore & Htr & Hhint).
  { destruct Hreset as [->|[[index Hopen]|[Hopen|[Hopen|Hopen]]]].
    - done.
    - unfold openBlock in Hopen.
      destruct (practiceMenu st) as [content|] eqn:Hmenu; [|done].
      apply practiceMenu_content in Hmenu. cbn [mbind option_bind] in Hopen.
      destruct (LessonContent.exerciseBlocks content !! index) as [block|] eqn:Hblock;
        [|done].
      injection Hopen as <-. rewrite getCurrentExercises_after_reset.
      unfold getCurrentExercises, selectedLesson in *. cbn [setLessonView selectedLessonId
        loadedLessons lessonView]. rewrite Hmenu, Hblock. done.
    - unfold openPractice2 in Hopen.
      destruct (practiceMenu st) as [content|] eqn:Hmenu; [|done].
      apply practiceMenu_content in Hmenu. cbn [mbind option_bind] in Hopen.
      destruct (LessonContent.exercises2 content) as [exercises|] eqn:Hexs; [|done].
      injection Hopen as <-. rewrite getCurrentExercises_after_reset.
      unfold getCurrentExercises, selectedLesson in *. cbn [setLessonView selectedLessonId
        loadedLessons lessonView]. rewrite Hmenu, Hexs. done.
    - unfold openPractice3 in Hopen.
      destruct (practiceMenu st) as [content|] eqn:Hmenu; [|done].
      apply practiceMenu_content in Hmenu. cbn [mbind option_bind] in Hopen.
      destruct (LessonContent.exercises3 content) as [exercises|] eqn:Hexs; [|done].
      injection Hopen as <-. rewrite getCurrentExercises_after_reset.
      unfold getCurrentExercises, selectedLesson in *. cbn [setLessonView selectedLessonId
        loadedLessons lessonView]. rewrite Hmenu, Hexs. done.
    - unfold openPractice4 in Hopen.
      destruct (practiceMenu st) as [content|] eqn:Hmenu; [|done].
      apply practiceMenu_content in Hmenu. cbn [mbind option_bind] in Hopen.
      destruct (LessonContent.exercises4 content) as [exercises|] eqn:Hexs; [|done].
      injection Hopen as <-. rewrite getCurrentExercises_after_reset.
      unfold getCurrentExercises, selectedLesson in *. cbn [setLessonView selectedLessonId
        loadedLessons lessonView]. rewrite Hmenu, Hexs. done. }
  split; [done|]. split; [rewrite Hanswers; apply initializeAnswers_shaped|].
  split; [done|]. split; [done|]. intros i.
  unfold translationVisible, hintVisible. by rewrite Htr, Hhint, !lookup_empty.
Qed.

Lemma every_reset_fits_the_current_set_witness :
  ∃ st',
    openPractice2 lesson1Menu = Some st'
    ∧ userAnswers st' = initializeAnswers (getCurrentExercises st')
    ∧ storeShaped (getCurrentExercises st') (userAnswers st')
    ∧ checked st' = false
    ∧ score st' = 0
    ∧ (∀ i, translationVisible st' i = false ∧ hintVisible st' i = false).
Proof.
  eexists. split; [vm_compute; reflexivity|].
  apply (every_reset_fits_the_current_set lesson1Menu).
  right. right. left. vm_compute. reflexivity.
Defined.

(** ** Translations and hints *)

(** X23. Toggling the translation of an exercise flips its visibility
    and that of no other exercise, so toggling twice shows what was
    shown before; the hints, the answers, the checked flag and the score
    are left alone.  Likewise for the hints. *)
Theorem toggles_flip_one_exercise (st : State) (index : nat) :
  (∀ j, translationVisible (toggleTranslation st index) j
        = if decide (j = index) then negb (translationVisible st index)
          else translationVisible st j)
  ∧ (∀ j, translationVisible (toggleTranslation (toggleTranslation st index) index) j
          = translationVisible st j)
  ∧ (∀ j, hintVisible (toggleTranslation st index) j = hintVisible st j)
  ∧ (∀ j, hintVisible (toggleHint st index) j
          = if decide (j = index) then negb (hintVisible st index) else hintVisible st j)
  ∧ (∀ j, hintVisible (toggleHint (toggleHint st index) index) j = hintVisible st j)
  ∧ (∀ j, translationVisible (toggleHint st index) j = translationVisible st j)
  ∧ userAnswers (toggleTranslation st index) = userAnswers st
  ∧ userAnswers (toggleHint st index) = userAnswers st
  ∧ checked (toggleTranslation st index) = checked st
  ∧ checked (toggleHint st index) = checked st.
Proof.
  assert (∀ j, translationVisible (toggleTranslation st index) j
               = if decide (j = index) then negb (translationVisible st index)
                 else translationVisible st j) as Htr.
  { intros j. unfold translationVisible at 1. cbn [toggleTranslation visibleTranslations].
    case_decide as Hj.
    - subst. by rewrite lookup_insert_eq.
    - by rewrite lookup_insert_ne. }
  assert (∀ j, hintVisible (toggleHint st index) j
               = if decide (j = index) then negb (hintVisible st index)
                 else hintVisible st j) as Hhint.
  { intros j. unfold hintVisible at 1. cbn [toggleHint visibleHints].
    case_decide as Hj.
    - subst. by rewrite lookup_insert_eq.
    - by rewrite lookup_insert_ne. }
  split; [done|]. split; [|split; [done|]]; [|split; [done|]]; [|split; [|done]].
  - intros j. unfold translationVisible at 1.
    cbn [toggleTranslation visibleTranslations]. destruct (decide (j = index)) as [->|Hj].
    + rewrite lookup_insert_eq. simpl. rewrite Htr. rewrite decide_True by done.
      by rewrite negb_involutive.
    + rewrite !lookup_insert_ne by done. done.
  - intros j. unfold hintVisible at 1.
    cbn [toggleHint visibleHints]. destruct (decide (j = index)) as [->|Hj].
    + rewrite lookup_insert_eq. simpl. rewrite Hhint. rewrite decide_True by done.
      by rewrite negb_involutive.
    + rewrite !lookup_insert_ne by done. done.
Qed.

(** ** Issuing a content fetch *)

Lemma find_app_first {A : Type} (p : A → bool) (l1 l2 : list A) :
  List.find p (l1 ++ l2)
  = match List.find p l1 with Some x => Some x | None => List.find p l2 end.
Proof. induction l1 as [|x l1 IH]; [done|]. simpl. by destruct (p x). Qed.

Lemma find_none_existsb {A : Type} (p : A → bool) (l : list A) :
  existsb p l = false → List.find p l = None.
Proof. induction l as [|x l IH]; [done|]. simpl. by destruct (p x). Qed.

(** The two searches of [handleSelectLesson], for a level holding the
    lesson and then for the lesson in it, find the first lesson with
    this id in the whole catalog. *)
Lemma lessonInfoOf_first (st : State) (lessonId : string) :
  lessonInfoOf st lessonId = firstCatalogLesson st lessonId.
Proof.
  unfold lessonInfoOf, firstCatalogLesson, catalogLessons.
  destruct (appData st) as [d|]; [|done]. cbn [mbind option_bind].
  induction (AppData.levels d) as [|level levels IH]; [done|].
  rewrite fmap_cons. cbn [concat List.find]. rewrite find_app_first.
  destruct (existsb (λ les, String.eqb (Lesson.id les) lessonId) (Level.lessons level))
    eqn:Hhere.
  - cbn [mbind option_bind]. by destruct (find_existsb _ _ Hhere) as [lesson ->].
  - by rewrite (find_none_existsb _ _ Hhere).
Qed.

(** X24. Selecting a lesson issues a content fetch exactly when the
    cache has no entry under its id, the id names no property that the
    cache object inherits, and the first lesson of the catalog with this
    id names a non-empty file; the fetch then carries this id and that
    file.  An id that names an inherited property is never fetched.  A
    fetch that fails changes nothing of this: the cache stays as it was,
    and every selection issues the fetch it would have issued. *)
Theorem fetch_issued_iff_unloaded_with_file :
  (∀ st lessonId r,
     (handleSelectLesson st lessonId).2 = Some r
     ↔ loadedLessons st !! lessonId = None
       ∧ (lessonId ∉ inheritedProperties)
       ∧ (∃ lesson, firstCatalogLesson st lessonId = Some lesson
                    ∧ Lesson.file lesson = Some (fetchFile r))
       ∧ fetchFile r ≠ ""
       ∧ fetchLessonId r = lessonId)
  ∧ (∀ st lessonId,
       lessonId ∈ inheritedProperties → (handleSelectLesson st lessonId).2 = None)
  ∧ (∀ w n w' lessonId,
       step w (FetchRejected n) = Some w' →
       loadedLessons (app w') = loadedLessons (app w)
       ∧ (handleSelectLesson (app w') lessonId).2 = (handleSelectLesson (app w) lessonId).2).
Proof.
  split; [|split].
  - intros st lessonId r. unfold handleSelectLesson.
    rewrite lessonInfoOf_first.
    destruct (lessonPresent st lessonId) eqn:Hpresent.
    + split; [done|]. intros (Hnone & Hnot & _). exfalso.
      unfold lessonPresent in Hpresent. apply orb_prop in Hpresent as [Hown|Hin].
      * apply bool_decide_eq_true_1 in Hown as [? Hown]. congruence.
      * by apply bool_decide_eq_true_1 in Hin.
    + apply lessonPresent_false in Hpresent as [Hnone Hnot]. split.
      * intros Hissued.
        destruct (firstCatalogLesson st lessonId) as [lesson|] eqn:Hfirst; [|done].
        cbn [mbind option_bind] in Hissued.
        destruct (Lesson.file lesson) as [file|] eqn:Hfile; [|done].
        destruct (String.eqb_spec file "") as [->|Hne]; [done|].
        injection Hissued as <-. simpl.
        split; [done|]. split; [done|]. split; [by exists lesson|done].
      * intros (_ & _ & Hlesson & Hne & Hid).
        destruct Hlesson as (lesson & Hfirst & Hfile).
        rewrite Hfirst. cbn [mbind option_bind]. rewrite Hfile.
        destruct (String.eqb_spec (fetchFile r) "") as [Hempty|_]; [done|].
        simpl. subst lessonId. by destruct r.
  - intros st lessonId Hin. unfold handleSelectLesson, lessonPresent.
    by rewrite (bool_decide_eq_true_2 (lessonId ∈ inheritedProperties)), orb_true_r.
  - intros w n w' lessonId. unfold step. destruct (offered w (FetchRejected n)); [|done].
    intros [= <-]. split; [done|]. cbn [app]. unfold handleSelectLesson.
    change (lessonInfoOf (fetchRejected (app w)) lessonId)
      with (lessonInfoOf (app w) lessonId).
    change (lessonPresent (fetchRejected (app w)) lessonId)
      with (lessonPresent (app w) lessonId).
    destruct (lessonPresent (app w) lessonId); [done|].
    destruct (lessonInfoOf (app w) lessonId ≫= Lesson.file) as [file|]; [|done].
    by destruct (String.eqb file "").
Qed.
